(** * BasicClusterSnapshot: the simulator's transactional cluster snapshot

    A shallow embedding of [package simulator]'s [BasicClusterSnapshot] and of
    its [internalBasicSnapshotData], with the listers built on it.

    The Go code stores [*schedulernodeinfo.NodeInfo] pointers in a
    [map[string]*NodeInfo] and mutates the pointed-to objects in place, so the
    embedding keeps an explicit object store ([Heap]) for the [NodeInfo]
    objects; maps hold addresses into it. *)

From stdpp Require Import base option list strings gmap fin_maps.

(** ** Values of the cluster object model ([apiv1]) *)

(** [labels.Set] is [map[string]string]. *)
Abbreviation LabelSet := (gmap string string).

(** Modelled from the spec: [apiv1.Node] belongs to the cluster object model,
    outside the sources at hand; "identity = name (unique string)", and the
    snapshot reads [node.Name] only. *)
Module Node.
Record t := mk { Name : string; Labels : LabelSet }.
End Node.

(** Modelled from the spec: [apiv1.Pod] belongs to the cluster object model
    as well; "identity = (namespace, name) pair". The snapshot reads
    [pod.Namespace], [pod.Name] and [pod.Labels]; [Affinity] is the flag
    "declaring inter-pod affinity/anti-affinity". *)
Module Pod.
Record t := mk {
  Namespace : string;
  Name : string;
  Labels : LabelSet;
  Affinity : bool
}.
End Pod.

(** A Go [error]: the message of [fmt.Errorf]; [nil] is [None]. *)
Definition error := string.

(** [labels.Selector] is an interface; the code calls [Matches] only. *)
Record Selector := { Matches : LabelSet → bool }.

(** [schedulerlisters.PodFilter]: a function from a pod to [bool]. *)
Definition PodFilter := Pod.t → bool.

(** ** NodeInfo *)

Module schedulernodeinfo.

(** Modelled from the spec: [schedulernodeinfo.NodeInfo] and its methods are
    vendored scheduler code that is not part of the sources at hand. The
    spec's NodeRecord "wraps one Node plus [the] Pods currently assigned to
    it" and "exposes a derived predicate: has at least one pod declaring
    inter-pod affinity/anti-affinity". [node] is a pointer in Go and is
    [nil] until [SetNode]. *)
Record NodeInfo := mkNodeInfo {
  node : option Node.t;
  pods : list Pod.t
}.

(** Modelled from the spec: [NewNodeInfo()], a record with no node and "an
    empty pod set". *)
Definition NewNodeInfo : NodeInfo := {| node := None; pods := [] |}.

(** Modelled from the spec: [SetNode], "a new NodeRecord wrapping [node]";
    the spec gives it no failure. *)
Definition SetNode (n : NodeInfo) (nd : Node.t) : NodeInfo * option error :=
  ({| node := Some nd; pods := pods n |}, None).

Definition Node (n : NodeInfo) : option Node.t := node n.

Definition Pods (n : NodeInfo) : list Pod.t := pods n.

(** Modelled from the spec: the pods behind the derived predicate, those of
    the record that declare inter-pod affinity or anti-affinity. *)
Definition PodsWithAffinity (n : NodeInfo) : list Pod.t :=
  filter (λ pod, Pod.Affinity pod) (pods n).

(** Modelled from the spec: "appends [pod] to the NodeRecord". *)
Definition AddPod (n : NodeInfo) (pod : Pod.t) : NodeInfo :=
  {| node := node n; pods := pods n ++ [pod] |}.

(** [RemovePod] of a record is vendored code outside the sources at hand,
    and the spec has no sentence on how a record takes a pod out or on when
    that fails: it is a parameter of the development. Two things are assumed
    of it: it leaves the node of the record alone, and a call that returns an
    error leaves the record as it is. *)
Class NodeInfoRemovePod := {
  RemovePod : NodeInfo → Pod.t → NodeInfo * option error;
  RemovePod_node : ∀ n pod, node (RemovePod n pod).1 = node n;
  RemovePod_failed :
    ∀ n pod, (RemovePod n pod).2 ≠ None → (RemovePod n pod).1 = n
}.

(** Modelled from the spec: "a deep-copy operation producing an independent
    NodeRecord"; the value of the copy, which the caller stores in a fresh
    object. *)
Definition Clone (n : NodeInfo) : NodeInfo :=
  {| node := node n; pods := pods n |}.

End schedulernodeinfo.

Import schedulernodeinfo.

(** ** The object store *)

(** Address of a [NodeInfo] object ([*schedulernodeinfo.NodeInfo]). *)
Abbreviation ptr := nat (only parsing).

(** The [NodeInfo] objects allocated so far; an address is an index. *)
Abbreviation Heap := (list NodeInfo).

(** [*p]: Go pointers never dangle; an address outside the store reads as a
    blank object, and the invariant [wf] below rules that case out. *)
Definition deref (h : Heap) (p : ptr) : NodeInfo := default NewNodeInfo (h !! p).

(** [&NodeInfo{...}]: a new object, at an address no map holds yet. *)
Definition alloc (v : NodeInfo) (h : Heap) : ptr * Heap := (length h, h ++ [v]).

(** [*p = v]. *)
Definition store (p : ptr) (v : NodeInfo) (h : Heap) : Heap := <[p := v]> h.

(** ** Iteration over a Go map

    [for k, v := range m] visits every entry once, in an order the language
    leaves open. Every definition below is parametric in that order, which
    may be any enumeration of the entries of the map. *)
Class MapRange := {
  range : gmap string ptr → list (string * ptr);
  range_perm : ∀ m, range m ≡ₚ map_to_list m
}.

(** [internalBasicSnapshotData]. *)
Record internalBasicSnapshotData := mkData {
  nodeInfoMap : gmap string ptr
}.

(** [BasicClusterSnapshot]; [forkedData] is [nil] when there is no fork. Each
    [internalBasicSnapshotData] object has a single owner at any time
    ([Commit] moves the forked object into [baseData] and drops the other
    reference), so the two fields hold the objects themselves. *)
Record BasicClusterSnapshot := mkSnapshot {
  baseData : internalBasicSnapshotData;
  forkedData : option internalBasicSnapshotData
}.

(** The memory the methods run in: the receiver and the object store. *)
Record World := mkWorld {
  snapshot : BasicClusterSnapshot;
  heap : Heap
}.

Section Snapshot.

Context {MR : MapRange} {NR : NodeInfoRemovePod}.

(** *** The listers *)

Definition nodeLister_List (data : internalBasicSnapshotData) (h : Heap)
  : list ptr * option error :=
  let nodeInfoList :=
    foldl (λ nodeInfoList kv, nodeInfoList ++ [kv.2]) [] (range (nodeInfoMap data)) in
  (nodeInfoList, None).

Definition nodeLister_HavePodsWithAffinityList (data : internalBasicSnapshotData)
  (h : Heap) : list ptr * option error :=
  let havePodsWithAffinityList :=
    foldl (λ acc kv,
             if decide (0 < length (PodsWithAffinity (deref h kv.2)))
             then acc ++ [kv.2] else acc)
          [] (range (nodeInfoMap data)) in
  (havePodsWithAffinityList, None).

Definition nodeLister_Get (data : internalBasicSnapshotData) (h : Heap)
  (nodeName : string) : option ptr * option error :=
  match nodeInfoMap data !! nodeName with
  | Some v => (Some v, None)
  | None => (None, Some ("node " +:+ nodeName +:+ " not in snapshot"))
  end.

Definition podLister_FilteredList (data : internalBasicSnapshotData) (h : Heap)
  (podFilter : PodFilter) (selector : Selector) : list Pod.t * option error :=
  let pods :=
    foldl (λ pods kv,
             foldl (λ pods pod,
                      if podFilter pod && Matches selector (Pod.Labels pod)
                      then pods ++ [pod] else pods)
                   pods (Pods (deref h kv.2)))
          [] (range (nodeInfoMap data)) in
  (pods, None).

Definition podLister_List (data : internalBasicSnapshotData) (h : Heap)
  (selector : Selector) : list Pod.t * option error :=
  let alwaysTrue := λ p : Pod.t, true in
  podLister_FilteredList data h alwaysTrue selector.

(** *** [internalBasicSnapshotData] *)

Definition newInternalBasicSnapshotData : internalBasicSnapshotData :=
  {| nodeInfoMap := ∅ |}.

(** Modelled from the spec: [v.Clone()] on a pointer, "producing an
    independent NodeRecord": the copy is a new object. *)
Definition NodeInfo_Clone (v : ptr) (h : Heap) : ptr * Heap :=
  alloc (Clone (deref h v)) h.

(** The body of the loop of [clone]: [clonedNodeInforMap[k] = v.Clone()]. *)
Definition clone_step (acc : gmap string ptr * Heap) (kv : string * ptr)
  : gmap string ptr * Heap :=
  let '(clonedNodeInforMap, h) := acc in
  let '(v', h') := NodeInfo_Clone kv.2 h in
  (<[kv.1 := v']> clonedNodeInforMap, h').

Definition clone (data : internalBasicSnapshotData) (h : Heap)
  : internalBasicSnapshotData * Heap :=
  let '(clonedNodeInforMap, h') :=
    foldl clone_step (∅, h) (range (nodeInfoMap data)) in
  ({| nodeInfoMap := clonedNodeInforMap |}, h').

Definition addNode (data : internalBasicSnapshotData) (h : Heap) (node : Node.t)
  : internalBasicSnapshotData * Heap * option error :=
  match nodeInfoMap data !! Node.Name node with
  | Some _ => (data, h, Some ("node " +:+ Node.Name node +:+ " already in snapshot"))
  | None =>
      let '(nodeInfo, h) := alloc NewNodeInfo h in
      let '(v, err) := SetNode (deref h nodeInfo) node in
      let h := store nodeInfo v h in
      match err with
      | Some e => (data, h, Some ("cannot set node in NodeInfo; " +:+ e))
      | None =>
          ({| nodeInfoMap := <[Node.Name node := nodeInfo]> (nodeInfoMap data) |},
           h, None)
      end
  end.

Definition removeNode (data : internalBasicSnapshotData) (h : Heap)
  (nodeName : string) : internalBasicSnapshotData * Heap * option error :=
  match nodeInfoMap data !! nodeName with
  | None => (data, h, Some ("node " +:+ nodeName +:+ " not in snapshot"))
  | Some _ => ({| nodeInfoMap := delete nodeName (nodeInfoMap data) |}, h, None)
  end.

Definition addPod (data : internalBasicSnapshotData) (h : Heap) (pod : Pod.t)
  (nodeName : string) : internalBasicSnapshotData * Heap * option error :=
  match nodeInfoMap data !! nodeName with
  | None => (data, h, Some ("node " +:+ nodeName +:+ " not in snapshot"))
  | Some nodeInfo => (data, store nodeInfo (AddPod (deref h nodeInfo) pod) h, None)
  end.

(** The test of the inner loop of [removePod]. *)
Definition podIs (namespace podName : string) (pod : Pod.t) : bool :=
  String.eqb (Pod.Namespace pod) namespace && String.eqb (Pod.Name pod) podName.

(** The two loops of [removePod] over the entries still to visit: the inner
    loop returns at the first pod of the record that passes the test. *)
Fixpoint removePod_scan (entries : list (string * ptr)) (h : Heap)
  (namespace podName : string) : Heap * option error :=
  match entries with
  | [] => (h, Some ("pod " +:+ namespace +:+ "/" +:+ podName +:+ " not in snapshot"))
  | kv :: entries' =>
      let nodeInfo := kv.2 in
      match List.find (podIs namespace podName) (Pods (deref h nodeInfo)) with
      | Some pod =>
          let '(v, err) := RemovePod (deref h nodeInfo) pod in
          let h := store nodeInfo v h in
          match err with
          | Some e => (h, Some ("cannot remove pod; " +:+ e))
          | None => (h, None)
          end
      | None => removePod_scan entries' h namespace podName
      end
  end.

Definition removePod (data : internalBasicSnapshotData) (h : Heap)
  (namespace podName : string) : internalBasicSnapshotData * Heap * option error :=
  let '(h, err) := removePod_scan (range (nodeInfoMap data)) h namespace podName in
  (data, h, err).

Definition getAllPods (data : internalBasicSnapshotData) (h : Heap)
  : list Pod.t * option error :=
  let pods :=
    foldl (λ pods kv, pods ++ Pods (deref h kv.2)) [] (range (nodeInfoMap data)) in
  (pods, None).

Definition getAllNodes (data : internalBasicSnapshotData) (h : Heap)
  : list (option Node.t) * option error :=
  let nodes :=
    foldl (λ nodes kv, nodes ++ [Node (deref h kv.2)]) [] (range (nodeInfoMap data)) in
  (nodes, None).

(** *** [BasicClusterSnapshot] *)

Definition getInternalData (snapshot : BasicClusterSnapshot)
  : internalBasicSnapshotData :=
  match forkedData snapshot with
  | Some forked => forked
  | None => baseData snapshot
  end.

(** What a method leaves behind in the object [getInternalData] returned. *)
Definition setInternalData (snapshot : BasicClusterSnapshot)
  (data : internalBasicSnapshotData) : BasicClusterSnapshot :=
  match forkedData snapshot with
  | Some _ => {| baseData := baseData snapshot; forkedData := Some data |}
  | None => {| baseData := data; forkedData := None |}
  end.

(** [snapshot.getInternalData().method(...)]. *)
Definition delegate (w : World)
  (method : internalBasicSnapshotData → Heap →
            internalBasicSnapshotData * Heap * option error)
  : World * option error :=
  let '(data, h, err) := method (getInternalData (snapshot w)) (heap w) in
  ({| snapshot := setInternalData (snapshot w) data; heap := h |}, err).

Definition AddNode (w : World) (node : Node.t) : World * option error :=
  delegate w (λ data h, addNode data h node).

Definition RemoveNode (w : World) (nodeName : string) : World * option error :=
  delegate w (λ data h, removeNode data h nodeName).

Definition AddPod (w : World) (pod : Pod.t) (nodeName : string)
  : World * option error :=
  delegate w (λ data h, addPod data h pod nodeName).

Definition RemovePod (w : World) (namespace podName : string)
  : World * option error :=
  delegate w (λ data h, removePod data h namespace podName).

Definition GetAllPods (w : World) : list Pod.t * option error :=
  getAllPods (getInternalData (snapshot w)) (heap w).

Definition GetAllNodes (w : World) : list (option Node.t) * option error :=
  getAllNodes (getInternalData (snapshot w)) (heap w).

Definition Fork (w : World) : World * option error :=
  match forkedData (snapshot w) with
  | Some _ => (w, Some "snapshot already forked")
  | None =>
      let '(forked, h) := clone (baseData (snapshot w)) (heap w) in
      ({| snapshot := {| baseData := baseData (snapshot w);
                         forkedData := Some forked |};
          heap := h |}, None)
  end.

Definition Revert (w : World) : World * option error :=
  ({| snapshot := {| baseData := baseData (snapshot w); forkedData := None |};
      heap := heap w |}, None).

Definition Commit (w : World) : World * option error :=
  match forkedData (snapshot w) with
  | None => (w, None)
  | Some forked =>
      ({| snapshot := {| baseData := forked; forkedData := None |};
          heap := heap w |}, None)
  end.

Definition Clear (w : World) : World * option error :=
  ({| snapshot := {| baseData := newInternalBasicSnapshotData;
                     forkedData := None |};
      heap := heap w |}, None).

(** [NewBasicClusterSnapshot()] in a store [h]: [Clear] on a new object. *)
Definition NewBasicClusterSnapshot (h : Heap) : World :=
  (Clear {| snapshot := {| baseData := newInternalBasicSnapshotData;
                           forkedData := None |};
            heap := h |}).1.

(** [GetSchedulerLister]: the lister is the active data itself. *)
Definition GetSchedulerLister (w : World)
  : internalBasicSnapshotData * option error :=
  (getInternalData (snapshot w), None).

(** *** Sequences of calls *)

Inductive Op :=
| OpAddNode (node : Node.t)
| OpRemoveNode (nodeName : string)
| OpAddPod (pod : Pod.t) (nodeName : string)
| OpRemovePod (namespace podName : string)
| OpFork
| OpRevert
| OpCommit
| OpClear.

Definition call (w : World) (op : Op) : World * option error :=
  match op with
  | OpAddNode node => AddNode w node
  | OpRemoveNode nodeName => RemoveNode w nodeName
  | OpAddPod pod nodeName => AddPod w pod nodeName
  | OpRemovePod namespace podName => RemovePod w namespace podName
  | OpFork => Fork w
  | OpRevert => Revert w
  | OpCommit => Commit w
  | OpClear => Clear w
  end.

(** The calls of [ops] one after the other, whatever each returns. *)
Definition run (w : World) (ops : list Op) : World :=
  foldl (λ w op, (call w op).1) w ops.

Definition isSetup (op : Op) : bool :=
  match op with
  | OpAddNode _ | OpAddPod _ _ => true
  | _ => false
  end.

Definition isMutation (op : Op) : bool :=
  match op with
  | OpAddNode _ | OpRemoveNode _ | OpAddPod _ _ | OpRemovePod _ _ => true
  | _ => false
  end.

(** The states a caller can bring a snapshot into. *)
Definition reachable (w : World) : Prop :=
  ∃ h0 ops, w = run (NewBasicClusterSnapshot h0) ops.

(** *** The invariant of the store

    Every address a map holds is allocated and its object wraps a node with
    the name of the key, and the base and the forked data share no object. *)

Definition named (h : Heap) (k : string) (p : ptr) : Prop :=
  ∃ ni nd, h !! p = Some ni ∧ node ni = Some nd ∧ Node.Name nd = k.

Definition wf_data (data : internalBasicSnapshotData) (h : Heap) : Prop :=
  ∀ k p, nodeInfoMap data !! k = Some p → named h k p.

Definition owns (data : internalBasicSnapshotData) (p : ptr) : Prop :=
  ∃ k, nodeInfoMap data !! k = Some p.

Definition separate (d1 d2 : internalBasicSnapshotData) : Prop :=
  ∀ p, owns d1 p → ¬ owns d2 p.

Definition wf (w : World) : Prop :=
  wf_data (baseData (snapshot w)) (heap w) ∧
  match forkedData (snapshot w) with
  | Some forked =>
      wf_data forked (heap w) ∧ separate (baseData (snapshot w)) forked
  | None => True
  end.

(** What a method on [data] may do to the store: it grows, objects that
    [data] does not own stay as they are, and what [data'] owns was owned by
    [data] or is new. *)
Definition frame (data : internalBasicSnapshotData) (h : Heap)
  (data' : internalBasicSnapshotData) (h' : Heap) : Prop :=
  length h ≤ length h' ∧
  (∀ p, p < length h → ¬ owns data p → h' !! p = h !! p) ∧
  (∀ p, owns data' p → owns data p ∨ length h ≤ p).

(** What [removePod] returns for what the record's [RemovePod] returned. *)
Definition wrapRemoveError (err : option error) : option error :=
  match err with
  | Some e => Some ("cannot remove pod; " +:+ e)
  | None => None
  end.

(** The records of a data object by node name, read through the store. *)
Definition contents (data : internalBasicSnapshotData) (h : Heap)
  : gmap string NodeInfo :=
  deref h <$> nodeInfoMap data.

Definition podsOf (c : gmap string NodeInfo) : list Pod.t :=
  map_to_list c ≫= (λ kv, Pods kv.2).

Definition nodesOf (c : gmap string NodeInfo) : list (option Node.t) :=
  (λ kv, Node kv.2) <$> map_to_list c.

End Snapshot.

(** An iteration order to run examples with: the one of [map_to_list]. *)
Definition listRange : MapRange :=
  {| range := map_to_list; range_perm := λ m, reflexivity (map_to_list m) |}.

(** An implementation of the parameter [NodeInfoRemovePod] to run examples
    with: it refuses every pod and leaves the record as it is, as a record
    does that keys its pods by their UID, which a [Pod.t] does not carry. *)
Definition removeByUID_RemovePod (n : NodeInfo) (pod : Pod.t)
  : NodeInfo * option error :=
  (n, Some "Cannot get cache key for pod with empty UID").

Definition removeByUID : NodeInfoRemovePod :=
  {| schedulernodeinfo.RemovePod := removeByUID_RemovePod;
     RemovePod_node := λ n pod, eq_refl;
     RemovePod_failed := λ n pod _, eq_refl |}.

(** ** Example values *)

Module Ex.
Definition n1 : Node.t := Node.mk "n1" ∅.
Definition n2 : Node.t := Node.mk "n2" ∅.
Definition podA : Pod.t := Pod.mk "default" "a" {[ "app" := "web" ]} false.
Definition podB : Pod.t := Pod.mk "default" "b" {[ "app" := "db" ]} true.
Definition start : World := @NewBasicClusterSnapshot [].
Definition appWeb : Selector :=
  {| Matches := λ ls, bool_decide (ls !! "app" = Some "web") |}.
Definition everything : Selector := {| Matches := λ _, true |}.
(** The scenario of the spec: a node with a pod, then a trial that adds a
    pod and removes the node. *)
Definition setup : list Op := [OpAddNode n1; OpAddPod podA "n1"].
Definition trial : list Op := [OpAddPod podB "n1"; OpRemoveNode "n1"].
(** The same pod on two nodes. *)
Definition shared : list Op :=
  [OpAddNode n1; OpAddNode n2; OpAddPod podA "n1"; OpAddPod podA "n2"].
(** Two nodes with their pods, one of them with affinity. *)
Definition two : list Op :=
  [OpAddNode n1; OpAddNode n2; OpAddPod podA "n1"; OpAddPod podB "n2"].
End Ex.

Module ExMore.
(** A second node object of the name of [Ex.n1]. *)
Definition n1' : Node.t := Node.mk "n1" {[ "zone" := "a" ]}.
(** The scenario of the spec up to and with its [Fork]. *)
Definition forked : list Op := Ex.setup ++ [OpFork].
End ExMore.

(** ** The request timeout of the CSIDriver client

    [List], [Watch] and [DeleteCollection] of [cSIDrivers] start with the same
    computation of the timeout they give the request; the request itself is
    the REST client's and is left out. *)

Module csidriver.

(** [int64] arithmetic wraps around. *)
Definition wrap64 (z : Z) : Z := ((z + 2 ^ 63) `mod` 2 ^ 64 - 2 ^ 63)%Z.

(** [time.Second], a [time.Duration] in nanoseconds. *)
Definition Second : Z := 1000000000%Z.

(** [var timeout time.Duration]: zero, or the seconds that
    [opts.TimeoutSeconds] points to, converted to [time.Duration] and
    multiplied by [time.Second], when that pointer is not [nil]. *)
Definition timeout (TimeoutSeconds : option Z) : Z :=
  match TimeoutSeconds with
  | Some seconds => wrap64 (seconds * Second)
  | None => 0%Z
  end.

End csidriver.

(** ** Lists and folds *)

Lemma foldl_app_bind {A B} (f : A → list B) (l : list A) (acc : list B) :
  foldl (λ acc x, acc ++ f x) acc l = acc ++ (l ≫= f).
Proof.
  revert acc. induction l as [|x l IH]; intros acc.
  - by rewrite app_nil_r.
  - rewrite bind_cons, app_assoc. apply IH.
Qed.

Lemma foldl_app_filter_bool {A} (b : A → bool) (l : list A) (acc : list A) :
  foldl (λ acc x, if b x then acc ++ [x] else acc) acc l
  = acc ++ filter (λ x, b x) l.
Proof.
  revert acc. induction l as [|x l IH]; intros acc; simpl.
  - by rewrite app_nil_r.
  - rewrite IH. destruct (b x) eqn:Hb.
    + rewrite filter_cons_True by (by apply Is_true_true). by rewrite <-app_assoc.
    + rewrite filter_cons_False; [done|]. by apply Is_true_false.
Qed.

Lemma foldl_ext_list {A B} (f g : B → A → B) (l : list A) (b : B) :
  (∀ b x, f b x = g b x) → foldl f b l = foldl g b l.
Proof.
  intros Hfg. revert b. induction l as [|x l IH]; intros b; simpl; [done|].
  by rewrite Hfg, IH.
Qed.

Lemma filter_bind_list {A B} (P : B → Prop) `{∀ y, Decision (P y)}
  (g : A → list B) (l : list A) :
  filter P (l ≫= g) = l ≫= (λ x, filter P (g x)).
Proof.
  induction l as [|x l IH]; [done|].
  by rewrite !bind_cons, filter_app, IH.
Qed.

Lemma length_filter_pos {A} (P : A → Prop) `{∀ x, Decision (P x)} (l : list A) :
  0 < length (filter P l) ↔ Exists P l.
Proof.
  induction l as [|x l IH].
  - rewrite filter_nil, Exists_nil. simpl. lia.
  - rewrite filter_cons, Exists_cons. destruct (decide (P x)); simpl.
    + split; [by left|lia].
    + rewrite IH. tauto.
Qed.

Lemma bind_singleton_fmap {A B} (f : A → B) (l : list A) :
  l ≫= (λ x, [f x]) = f <$> l.
Proof.
  induction l as [|x l IH]; [done|].
  by rewrite bind_cons, fmap_cons, IH.
Qed.

Lemma bind_fmap_list {A B C} (g : A → B) (f : B → list C) (l : list A) :
  (g <$> l) ≫= f = l ≫= (λ x, f (g x)).
Proof.
  induction l as [|x l IH]; [done|].
  by rewrite fmap_cons, !bind_cons, IH.
Qed.

Lemma find_None_all {A} (f : A → bool) (l : list A) :
  List.find f l = None → ∀ x, x ∈ l → f x = false.
Proof.
  induction l as [|y l IH]; simpl; intros Hf x Hx.
  - by apply elem_of_nil in Hx.
  - destruct (f y) eqn:Hy; [done|].
    apply elem_of_cons in Hx as [->|Hx]; auto.
Qed.

Lemma find_Some_split {A} (f : A → bool) (l : list A) (x : A) :
  List.find f l = Some x →
  ∃ l1 l2, l = l1 ++ x :: l2 ∧ f x = true ∧ ∀ y, y ∈ l1 → f y = false.
Proof.
  induction l as [|y l IH]; simpl; [done|].
  destruct (f y) eqn:Hy.
  - intros [= ->]. exists [], l. split_and!; [done|done|].
    intros z Hz. by apply elem_of_nil in Hz.
  - intros (l1 & l2 & -> & Hx & Hl1)%IH. exists (y :: l1), l2.
    split_and!; [done|done|].
    intros z [->|Hz]%elem_of_cons; auto.
Qed.

Lemma Clone_id (n : NodeInfo) : Clone n = n.
Proof. by destruct n. Qed.

Section Proofs.

Context {MR : MapRange} {NR : NodeInfoRemovePod}.

Implicit Types (data : internalBasicSnapshotData) (h : Heap) (w : World).
Implicit Types (m : gmap string ptr) (p : ptr) (k : string).

(** ** The store *)

Lemma deref_lookup h p ni : h !! p = Some ni → deref h p = ni.
Proof. unfold deref. by intros ->. Qed.

Lemma deref_agree h h' p : h' !! p = h !! p → deref h' p = deref h p.
Proof. unfold deref. by intros ->. Qed.

Lemma named_lt h k p : named h k p → p < length h.
Proof. intros (ni & nd & Hp & _). by eapply lookup_lt_Some. Qed.

Lemma named_agree h h' k p : h' !! p = h !! p → named h k p → named h' k p.
Proof. unfold named. by intros ->. Qed.

Lemma store_lookup_eq h p v : p < length h → store p v h !! p = Some v.
Proof. apply list_lookup_insert_eq. Qed.

Lemma store_lookup_ne h p q v : p ≠ q → store p v h !! q = h !! q.
Proof. apply list_lookup_insert_ne. Qed.

Lemma alloc_store h v v' : store (length h) v' (h ++ [v]) = h ++ [v'].
Proof.
  unfold store. rewrite insert_app_r_alt by done.
  by rewrite Nat.sub_diag.
Qed.

Lemma deref_alloc h v : deref (h ++ [v]) (length h) = v.
Proof. unfold deref. by rewrite lookup_app_r, Nat.sub_diag. Qed.

Lemma frame_refl data h : frame data h data h.
Proof. split_and!; [done|done|]. intros p Hp. by left. Qed.

(** ** Iteration *)

Lemma elem_of_range m k p : (k, p) ∈ range m ↔ m !! k = Some p.
Proof. rewrite range_perm. apply elem_of_map_to_list. Qed.

Lemma elem_of_range_owns data kv :
  kv ∈ range (nodeInfoMap data) → owns data kv.2.
Proof. destruct kv as [k p]. rewrite elem_of_range. by exists k. Qed.

Lemma range_bind_contents {B} (g : NodeInfo → list B) m h :
  range m ≫= (λ kv, g (deref h kv.2))
  ≡ₚ map_to_list (deref h <$> m) ≫= (λ kv, g kv.2).
Proof.
  rewrite range_perm, map_to_list_fmap, bind_fmap_list.
  induction (map_to_list m) as [|[k p] l IH]; [done|].
  rewrite !bind_cons. simpl. by rewrite IH.
Qed.

Lemma HavePodsWithAffinityList_fold h (l : list (string * ptr)) (acc : list ptr) :
  foldl (λ acc kv,
           if decide (0 < length (PodsWithAffinity (deref h kv.2)))
           then acc ++ [kv.2] else acc) acc l
  = acc ++ filter (λ p, 0 < length (PodsWithAffinity (deref h p))) l.*2.
Proof.
  revert acc. induction l as [|kv l IH]; intros acc; cbn [foldl].
  - by rewrite app_nil_r.
  - rewrite IH, fmap_cons, filter_cons.
    destruct (decide (0 < length (PodsWithAffinity (deref h kv.2)))); [|done].
    by rewrite <-app_assoc.
Qed.

(** ** The bulk reads, through [contents] *)

Lemma getAllPods_bind data h :
  (getAllPods data h).1 = range (nodeInfoMap data) ≫= (λ kv, Pods (deref h kv.2)).
Proof. unfold getAllPods. simpl. by rewrite foldl_app_bind. Qed.

Lemma getAllNodes_fmap data h :
  (getAllNodes data h).1 = (λ kv, Node (deref h kv.2)) <$> range (nodeInfoMap data).
Proof.
  unfold getAllNodes. simpl.
  by rewrite (foldl_app_bind (λ kv, [Node (deref h kv.2)])), bind_singleton_fmap.
Qed.

Lemma getAllPods_contents data h :
  (getAllPods data h).1 ≡ₚ podsOf (contents data h).
Proof. rewrite getAllPods_bind. apply (range_bind_contents Pods). Qed.

Lemma getAllNodes_contents data h :
  (getAllNodes data h).1 ≡ₚ nodesOf (contents data h).
Proof.
  rewrite getAllNodes_fmap. unfold nodesOf, contents.
  rewrite <-!bind_singleton_fmap.
  apply (range_bind_contents (λ ni, [Node ni])).
Qed.

Lemma contents_agree data h h' :
  (∀ p, owns data p → h' !! p = h !! p) → contents data h' = contents data h.
Proof.
  intros Hag. apply map_eq. intros k. unfold contents. rewrite !lookup_fmap.
  destruct (nodeInfoMap data !! k) as [p|] eqn:Hk; [|done]. simpl.
  f_equal. apply deref_agree, Hag. by exists k.
Qed.

Lemma elem_of_getAllPods data h pod :
  pod ∈ (getAllPods data h).1 ↔
  ∃ k p, nodeInfoMap data !! k = Some p ∧ pod ∈ Pods (deref h p).
Proof.
  rewrite getAllPods_bind, list_elem_of_bind. split.
  - intros ([k p] & Hpod & Hkv). exists k, p. by rewrite <-elem_of_range.
  - intros (k & p & Hk & Hpod). exists (k, p). by rewrite elem_of_range.
Qed.

(** ** The methods of [internalBasicSnapshotData], one by one *)

Lemma addNode_eq data h node :
  addNode data h node =
  match nodeInfoMap data !! Node.Name node with
  | Some _ =>
      (data, h, Some ("node " +:+ Node.Name node +:+ " already in snapshot"))
  | None =>
      ({| nodeInfoMap := <[Node.Name node := length h]> (nodeInfoMap data) |},
       h ++ [{| node := Some node; pods := [] |}], None)
  end.
Proof.
  unfold addNode, alloc. destruct (nodeInfoMap data !! Node.Name node); [done|].
  unfold SetNode. by rewrite deref_alloc, alloc_store.
Qed.

Lemma addNode_frame data h node data' h' err :
  wf_data data h → addNode data h node = (data', h', err) →
  wf_data data' h' ∧ frame data h data' h'.
Proof.
  intros Hwf. rewrite addNode_eq.
  destruct (nodeInfoMap data !! Node.Name node) eqn:Hn; intros [= <- <- <-].
  { split; [done|apply frame_refl]. }
  split.
  - intros k p. simpl. rewrite lookup_insert. case_decide as Hk.
    + intros [= <-]. exists {| node := Some node; pods := [] |}, node.
      split_and!; [|done|done].
      by rewrite lookup_app_r, Nat.sub_diag.
    + intros Hp%Hwf. eapply named_agree; [|done].
      apply lookup_app_l. by eapply named_lt.
  - split_and!.
    + rewrite length_app. lia.
    + intros p Hp _. by apply lookup_app_l.
    + intros p [k Hk]. simpl in Hk. rewrite lookup_insert in Hk.
      case_decide; [right; naive_solver lia|left; by exists k].
Qed.

Lemma removeNode_frame data h nodeName data' h' err :
  wf_data data h → removeNode data h nodeName = (data', h', err) →
  wf_data data' h' ∧ frame data h data' h'.
Proof.
  intros Hwf. unfold removeNode.
  destruct (nodeInfoMap data !! nodeName) eqn:Hn; intros [= <- <- <-].
  2: { split; [done|apply frame_refl]. }
  split.
  - intros k p. simpl. rewrite lookup_delete. case_decide; [done|apply Hwf].
  - split_and!; [done|done|].
    intros p [k Hk]. simpl in Hk. rewrite lookup_delete in Hk.
    case_decide; [done|left; by exists k].
Qed.

(** Writing into an object that [data] owns, without touching its node. *)
Lemma store_frame data h p v :
  wf_data data h → owns data p → node v = node (deref h p) →
  wf_data data (store p v h) ∧ frame data h data (store p v h).
Proof.
  intros Hwf Hown Hv. split.
  - intros k q Hq. destruct (decide (p = q)) as [<-|Hne].
    + destruct (Hwf k p Hq) as (ni & nd & Hp & Hnd & Hk).
      exists v, nd. split_and!; [|by rewrite Hv, (deref_lookup _ _ _ Hp)|done].
      apply store_lookup_eq. by eapply lookup_lt_Some.
    + eapply named_agree; [by apply store_lookup_ne|by apply Hwf].
  - split_and!.
    + unfold store. by rewrite length_insert.
    + intros q _ Hq. apply store_lookup_ne. by intros ->.
    + intros q Hq. by left.
Qed.

Lemma addPod_frame data h pod nodeName data' h' err :
  wf_data data h → addPod data h pod nodeName = (data', h', err) →
  wf_data data' h' ∧ frame data h data' h'.
Proof.
  intros Hwf. unfold addPod.
  destruct (nodeInfoMap data !! nodeName) as [p|] eqn:Hn; intros [= <- <- <-].
  2: { split; [done|apply frame_refl]. }
  apply store_frame; [done|by exists nodeName|done].
Qed.

(** The scan either finds no pod in any record and touches nothing, or stops
    at the first record that holds one and hands the first one of it to the
    record's [RemovePod]. *)
Lemma removePod_scan_cases entries h namespace podName :
  (removePod_scan entries h namespace podName
   = (h, Some ("pod " +:+ namespace +:+ "/" +:+ podName +:+ " not in snapshot"))
   ∧ ∀ kv q, kv ∈ entries → q ∈ Pods (deref h kv.2) →
             podIs namespace podName q = false)
  ∨ (∃ before kv after ps1 pod ps2,
       entries = before ++ kv :: after ∧
       (∀ kv' q, kv' ∈ before → q ∈ Pods (deref h kv'.2) →
                 podIs namespace podName q = false) ∧
       Pods (deref h kv.2) = ps1 ++ pod :: ps2 ∧
       (∀ q, q ∈ ps1 → podIs namespace podName q = false) ∧
       podIs namespace podName pod = true ∧
       removePod_scan entries h namespace podName
       = (store kv.2 (schedulernodeinfo.RemovePod (deref h kv.2) pod).1 h,
          wrapRemoveError (schedulernodeinfo.RemovePod (deref h kv.2) pod).2)).
Proof.
  induction entries as [|kv entries IH]; simpl.
  { left. split; [done|]. intros kv q Hkv. by apply elem_of_nil in Hkv. }
  destruct (List.find _ _) as [pod|] eqn:Hfind.
  - right. apply find_Some_split in Hfind as (ps1 & ps2 & Hps & Hpod & Hps1).
    exists [], kv, entries, ps1, pod, ps2. split_and!; try done.
    + intros kv' q Hkv'. by apply elem_of_nil in Hkv'.
    + destruct (schedulernodeinfo.RemovePod (deref h kv.2) pod) as [v [e|]]; done.
  - pose proof (find_None_all _ _ Hfind) as Hnone.
    destruct IH as [[-> Hall]|(before & kv0 & after & ps1 & pod & ps2 & -> & Hbefore & Hps & Hps1 & Hpod & ->)].
    + left. split; [done|].
      intros kv' q [->|Hkv']%elem_of_cons Hq; eauto.
    + right. exists (kv :: before), kv0, after, ps1, pod, ps2.
      split_and!; try done.
      intros kv' q [->|Hkv']%elem_of_cons Hq; eauto.
Qed.

Lemma removePod_frame data h namespace podName data' h' err :
  wf_data data h → removePod data h namespace podName = (data', h', err) →
  wf_data data' h' ∧ frame data h data' h'.
Proof.
  intros Hwf. unfold removePod.
  destruct (removePod_scan_cases (range (nodeInfoMap data)) h namespace podName)
    as [[-> _]|(before & kv & after & ps1 & pod & ps2 & Hr & _ & _ & _ & _ & ->)];
    intros [= <- <- <-].
  { split; [done|apply frame_refl]. }
  apply store_frame; [done| |apply RemovePod_node].
  apply elem_of_range_owns. rewrite Hr. apply elem_of_app. right. by left.
Qed.

(** ** [clone] *)

Lemma clone_fold (l : list (string * ptr)) h0 m0 h m1 h1 :
  (∀ kv, kv ∈ l → kv.2 < length h0) → h0 `prefix_of` h →
  foldl clone_step (m0, h) l = (m1, h1) →
  h `prefix_of` h1 ∧
  (∀ k, k ∉ l.*1 → m1 !! k = m0 !! k) ∧
  (∀ k, k ∈ l.*1 →
     ∃ p p', (k, p) ∈ l ∧ m1 !! k = Some p' ∧ length h ≤ p' ∧
             h1 !! p' = Some (deref h0 p)).
Proof.
  revert m0 h. induction l as [|[k0 p0] l IH]; intros m0 h Hlt Hpre; cbn [foldl].
  { intros [= <- <-]. split_and!; [done|done|]. intros k Hk. by apply elem_of_nil in Hk. }
  unfold clone_step at 2, NodeInfo_Clone, alloc. rewrite Clone_id. cbn [fst snd].
  assert (deref h p0 = deref h0 p0) as ->.
  { apply deref_agree. destruct Hpre as [ext ->]. apply lookup_app_l.
    apply (Hlt (k0, p0)). by left. }
  intros Hfold. apply IH in Hfold as (Hpre1 & Hout & Hin).
  2: { intros kv Hkv. apply Hlt. by right. }
  2: { etrans; [done|]. by apply prefix_app_r. }
  assert (h1 !! length h = Some (deref h0 p0)) as Hnew.
  { destruct Hpre1 as [ext ->]. apply lookup_app_l_Some.
    by rewrite lookup_app_r, Nat.sub_diag. }
  split_and!.
  - etrans; [|done]. by apply prefix_app_r.
  - intros k [Hk Hkl]%not_elem_of_cons. by rewrite Hout, lookup_insert_ne.
  - intros k Hk. destruct (decide (k ∈ l.*1)) as [Hkl|Hkl].
    + destruct (Hin k Hkl) as (p & p' & Hp & Hm1 & Hle & Hh1).
      exists p, p'. split_and!; [by right|done| |done].
      rewrite length_app in Hle. lia.
    + apply elem_of_cons in Hk as [->|Hk]; [|done].
      exists p0, (length h). split_and!; [by left| |done|done].
      by rewrite Hout, lookup_insert_eq.
Qed.

Lemma clone_spec data h data' h' :
  wf_data data h → clone data h = (data', h') →
  h `prefix_of` h' ∧
  (∀ k, nodeInfoMap data !! k = None → nodeInfoMap data' !! k = None) ∧
  (∀ k p, nodeInfoMap data !! k = Some p →
     ∃ p', nodeInfoMap data' !! k = Some p' ∧ length h ≤ p' ∧
           h' !! p' = Some (deref h p)).
Proof.
  intros Hwf. unfold clone.
  destruct (foldl _ _ _) as [m1 h1] eqn:Hfold. intros [= <- <-].
  apply (clone_fold _ h) in Hfold as (Hpre & Hout & Hin); [|..|done].
  2: { intros [k p] Hkv%elem_of_range. eapply named_lt. by apply Hwf. }
  split_and!; [done|..]; simpl.
  - intros k Hk. rewrite Hout; [done|].
    intros ([k' p] & -> & Hkv%elem_of_range)%list_elem_of_fmap. simpl in Hk. congruence.
  - intros k p Hk. destruct (Hin k) as (q & p' & Hq%elem_of_range & Hm1 & Hle & Hh1).
    { apply list_elem_of_fmap. exists (k, p). by rewrite elem_of_range. }
    exists p'. split_and!; [done|done|]. congruence.
Qed.

(** ** The invariant *)

Lemma prefix_lookup_lt h h' p : h `prefix_of` h' → p < length h → h' !! p = h !! p.
Proof. intros [ext ->] Hp. by apply lookup_app_l. Qed.

Lemma wf_data_prefix data h h' : h `prefix_of` h' → wf_data data h → wf_data data h'.
Proof.
  intros Hpre Hwf k p Hp%Hwf. eapply named_agree; [|done].
  apply prefix_lookup_lt; [done|]. by eapply named_lt.
Qed.

Lemma owns_lt data h p : wf_data data h → owns data p → p < length h.
Proof. intros Hwf [k Hk]. eapply named_lt. by apply Hwf. Qed.

(** A method on [data] leaves every data object apart from it as it was. *)
Lemma frame_other d0 data h data' h' :
  wf_data d0 h → separate d0 data → frame data h data' h' →
  wf_data d0 h' ∧ separate d0 data' ∧ ∀ p, owns d0 p → h' !! p = h !! p.
Proof.
  intros Hwf Hsep (Hlen & Hkeep & Hnew).
  assert (∀ p, owns d0 p → h' !! p = h !! p) as Hag.
  { intros p Hp. apply Hkeep; [by eapply owns_lt|by apply Hsep]. }
  split_and!; [| |done].
  - intros k p Hk. eapply named_agree; [|by apply Hwf]. apply Hag. by exists k.
  - intros p Hp Hp'. destruct (Hnew p Hp') as [Hold|Hge].
    + by apply (Hsep p).
    + pose proof (owns_lt _ _ _ Hwf Hp). lia.
Qed.

Lemma wf_New h0 : wf (NewBasicClusterSnapshot h0).
Proof. split; [|done]. intros k p Hk. simpl in Hk. by rewrite lookup_empty in Hk. Qed.

(** The four mutators go through [delegate]. *)
Lemma delegate_wf w method :
  (∀ data h data' h' err, wf_data data h → method data h = (data', h', err) →
                          wf_data data' h' ∧ frame data h data' h') →
  wf w →
  let w' := (delegate w method).1 in
  wf w' ∧
  match forkedData (snapshot w) with
  | Some _ =>
      is_Some (forkedData (snapshot w')) ∧
      baseData (snapshot w') = baseData (snapshot w) ∧
      ∀ p, owns (baseData (snapshot w)) p → heap w' !! p = heap w !! p
  | None => forkedData (snapshot w') = None
  end.
Proof.
  intros Hm [Hbase Hfork]. unfold delegate, getInternalData, setInternalData.
  destruct (forkedData (snapshot w)) as [forked|] eqn:Hf.
  - destruct Hfork as [Hforked Hsep].
    destruct (method forked (heap w)) as [[data' h'] err] eqn:Hcall. simpl.
    destruct (Hm _ _ _ _ _ Hforked Hcall) as [Hwf' Hframe].
    destruct (frame_other _ _ _ _ _ Hbase Hsep Hframe) as (Hbase' & Hsep' & Hag).
    split_and!; [by split|by eexists|done|done].
  - destruct (method (baseData (snapshot w)) (heap w)) as [[data' h'] err] eqn:Hcall.
    simpl. destruct (Hm _ _ _ _ _ Hbase Hcall) as [Hwf' Hframe].
    by split.
Qed.

Lemma mutation_frame op :
  isMutation op →
  ∃ method, (∀ w, call w op = delegate w method) ∧
    ∀ data h data' h' err, wf_data data h → method data h = (data', h', err) →
                           wf_data data' h' ∧ frame data h data' h'.
Proof.
  destruct op as [nd|nodeName|pod nodeName|namespace podName| | | |];
    simpl; try done; intros _.
  - exists (λ data h, addNode data h nd). split; [done|]. intros *. apply addNode_frame.
  - exists (λ data h, removeNode data h nodeName). split; [done|]. intros *. apply removeNode_frame.
  - exists (λ data h, addPod data h pod nodeName). split; [done|]. intros *. apply addPod_frame.
  - exists (λ data h, removePod data h namespace podName). split; [done|]. intros *. apply removePod_frame.
Qed.

(** [Fork] without a fork: the clone holds, under every name of the base
    data, a new object with the value of the base one. *)
Lemma Fork_unforked w :
  wf w → forkedData (snapshot w) = None →
  ∃ forked h',
    Fork w = ({| snapshot := {| baseData := baseData (snapshot w);
                                forkedData := Some forked |};
                 heap := h' |}, None) ∧
    heap w `prefix_of` h' ∧
    (∀ k, nodeInfoMap (baseData (snapshot w)) !! k = None →
          nodeInfoMap forked !! k = None) ∧
    (∀ k p, nodeInfoMap (baseData (snapshot w)) !! k = Some p →
       ∃ p', nodeInfoMap forked !! k = Some p' ∧ length (heap w) ≤ p' ∧
             h' !! p' = Some (deref (heap w) p)) ∧
    wf (Fork w).1.
Proof.
  intros [Hbase _] Hf. unfold Fork. rewrite Hf.
  destruct (clone _ _) as [forked h'] eqn:Hclone.
  destruct (clone_spec _ _ _ _ Hbase Hclone) as (Hpre & Hnone & Hsome).
  exists forked, h'. split_and!; try done.
  split; simpl; [by eapply wf_data_prefix|]. split.
  - intros k p' Hk.
    destruct (nodeInfoMap (baseData (snapshot w)) !! k) as [p|] eqn:Hb.
    2: { apply Hnone in Hb. congruence. }
    destruct (Hsome k p Hb) as (p'' & Hk' & _ & Hh').
    assert (p'' = p') as -> by congruence.
    destruct (Hbase k p Hb) as (ni & nd & Hp & Hnd & Hname).
    exists ni, nd. by rewrite Hh', (deref_lookup _ _ _ Hp).
  - intros p Hp [k Hk].
    destruct (nodeInfoMap (baseData (snapshot w)) !! k) as [q|] eqn:Hb.
    2: { apply Hnone in Hb. congruence. }
    destruct (Hsome k q Hb) as (p'' & Hk' & Hle & _).
    assert (p'' = p) as -> by congruence.
    pose proof (owns_lt _ _ _ Hbase Hp). lia.
Qed.

Lemma call_wf w op : wf w → wf (call w op).1.
Proof.
  intros Hwf.
  destruct (decide (isMutation op)) as [Hmut|Hmut].
  { destruct (mutation_frame op Hmut) as (method & -> & Hm).
    by apply delegate_wf. }
  destruct op; simpl in *; try done.
  - destruct (forkedData (snapshot w)) eqn:Hf.
    + unfold Fork. by rewrite Hf.
    + by destruct (Fork_unforked w Hwf Hf) as (_ & _ & _ & _ & _ & _ & Hwf').
  - destruct Hwf as [Hbase _]. by split.
  - unfold Commit. destruct (forkedData (snapshot w)) eqn:Hf; [|done].
    destruct Hwf as [_ Hfork]. rewrite Hf in Hfork. split; [apply Hfork|done].
Qed.

Lemma run_wf w ops : wf w → wf (run w ops).
Proof.
  revert w. induction ops as [|op ops IH]; intros w Hwf; [done|].
  apply IH. by apply call_wf.
Qed.

Lemma reachable_wf w : reachable w → wf w.
Proof. intros (h0 & ops & ->). apply run_wf, wf_New. Qed.


(** ** [contents] under the mutators *)

Lemma setInternalData_get (s : BasicClusterSnapshot) :
  setInternalData s (getInternalData s) = s.
Proof. by destruct s as [base [forked|]]. Qed.

Lemma getInternalData_set (s : BasicClusterSnapshot) data :
  getInternalData (setInternalData s data) = data.
Proof. by destruct s as [base [forked|]]. Qed.

Lemma wf_active w : wf w → wf_data (getInternalData (snapshot w)) (heap w).
Proof.
  intros [Hbase Hfork]. unfold getInternalData.
  destruct (forkedData (snapshot w)); [apply Hfork|done].
Qed.

(** Two names of one data object never share an object. *)
Lemma wf_data_inj data h k1 k2 p :
  wf_data data h →
  nodeInfoMap data !! k1 = Some p → nodeInfoMap data !! k2 = Some p → k1 = k2.
Proof.
  intros Hwf (ni1 & nd1 & Hp1 & Hnd1 & <-)%Hwf (ni2 & nd2 & Hp2 & Hnd2 & <-)%Hwf.
  congruence.
Qed.

Lemma contents_store data h k p v :
  wf_data data h → nodeInfoMap data !! k = Some p →
  contents data (store p v h) = <[k := v]> (contents data h).
Proof.
  intros Hwf Hk. apply map_eq. intros k'. unfold contents.
  rewrite lookup_insert, !lookup_fmap. case_decide as Hkk.
  - subst k'. rewrite Hk. simpl. f_equal. apply deref_lookup, store_lookup_eq.
    eapply named_lt. by apply Hwf.
  - destruct (nodeInfoMap data !! k') as [q|] eqn:Hk'; [|done]. simpl.
    f_equal. apply deref_agree, store_lookup_ne. intros ->.
    by destruct Hkk; eapply wf_data_inj.
Qed.

Lemma contents_lookup data h k p :
  nodeInfoMap data !! k = Some p → contents data h !! k = Some (deref h p).
Proof. intros Hk. unfold contents. by rewrite lookup_fmap, Hk. Qed.

Lemma podsOf_lookup (c : gmap string NodeInfo) k v :
  c !! k = Some v → podsOf c ≡ₚ Pods v ++ podsOf (delete k c).
Proof.
  intros Hk. unfold podsOf. by rewrite <-(map_to_list_delete c k v Hk), bind_cons.
Qed.

Lemma podsOf_insert (c : gmap string NodeInfo) k v :
  podsOf (<[k := v]> c) ≡ₚ Pods v ++ podsOf (delete k c).
Proof.
  rewrite (podsOf_lookup (<[k := v]> c) k v) by apply lookup_insert_eq.
  by rewrite delete_insert_eq.
Qed.

Lemma nodesOf_lookup (c : gmap string NodeInfo) k v :
  c !! k = Some v → nodesOf c ≡ₚ Node v :: nodesOf (delete k c).
Proof.
  intros Hk. unfold nodesOf. by rewrite <-(map_to_list_delete c k v Hk), fmap_cons.
Qed.

Lemma nodesOf_insert (c : gmap string NodeInfo) k v :
  nodesOf (<[k := v]> c) ≡ₚ Node v :: nodesOf (delete k c).
Proof.
  rewrite (nodesOf_lookup (<[k := v]> c) k v) by apply lookup_insert_eq.
  by rewrite delete_insert_eq.
Qed.

(** The forked data reads as the base data did when [Fork] was called. *)
Lemma Fork_contents w forked h' :
  wf w → forkedData (snapshot w) = None →
  Fork w = ({| snapshot := {| baseData := baseData (snapshot w);
                              forkedData := Some forked |};
               heap := h' |}, None) →
  contents forked h' = contents (baseData (snapshot w)) (heap w) ∧
  contents (baseData (snapshot w)) h' = contents (baseData (snapshot w)) (heap w).
Proof.
  intros Hwf Hf HF.
  destruct (Fork_unforked w Hwf Hf) as (forked' & h'' & HF' & Hpre & Hnone & Hsome & _).
  rewrite HF in HF'. injection HF' as <- <-. split.
  - apply map_eq. intros k. unfold contents. rewrite !lookup_fmap.
    destruct (nodeInfoMap (baseData (snapshot w)) !! k) as [p|] eqn:Hb.
    + destruct (Hsome k p Hb) as (p' & -> & _ & Hh'). simpl.
      by rewrite (deref_lookup _ _ _ Hh').
    + by rewrite (Hnone k Hb).
  - apply contents_agree. intros p Hp. apply prefix_lookup_lt; [done|].
    eapply owns_lt; [apply Hwf|done].
Qed.

(** ** Runs of mutators *)

Lemma isSetup_isMutation op : isSetup op → isMutation op.
Proof. by destruct op. Qed.

Lemma run_cons w op ops : run w (op :: ops) = run (call w op).1 ops.
Proof. done. Qed.

Lemma run_mutations_unforked w ops :
  wf w → forkedData (snapshot w) = None → Forall isMutation ops →
  forkedData (snapshot (run w ops)) = None.
Proof.
  revert w. induction ops as [|op ops IH]; intros w Hwf Hf Hops; [done|].
  apply Forall_cons in Hops as [Hop Hops]. rewrite run_cons.
  destruct (mutation_frame op Hop) as (method & Hcall & Hm).
  pose proof (delegate_wf w method Hm Hwf) as [Hwf' Hst].
  rewrite Hf in Hst. rewrite <-Hcall in Hwf', Hst. by apply IH.
Qed.

(** While forked, mutators work on the forked data; the base data and the
    objects it owns stay as they are. *)
Lemma run_mutations_forked w ops :
  wf w → is_Some (forkedData (snapshot w)) → Forall isMutation ops →
  let w' := run w ops in
  wf w' ∧ is_Some (forkedData (snapshot w')) ∧
  baseData (snapshot w') = baseData (snapshot w) ∧
  ∀ p, owns (baseData (snapshot w)) p → heap w' !! p = heap w !! p.
Proof.
  revert w. induction ops as [|op ops IH]; intros w Hwf Hf Hops; [done|].
  apply Forall_cons in Hops as [Hop Hops]. rewrite run_cons.
  destruct (mutation_frame op Hop) as (method & Hcall & Hm).
  pose proof (delegate_wf w method Hm Hwf) as [Hwf' Hst].
  destruct Hf as [forked Hf]. rewrite Hf in Hst. rewrite <-Hcall in Hwf', Hst.
  destruct Hst as (Hf' & Hbase & Hag).
  destruct (IH _ Hwf' Hf' Hops) as (Hwf'' & Hf'' & Hbase' & Hag').
  split_and!; [done|done|congruence|].
  intros p Hp. rewrite Hag' by (by rewrite Hbase). by apply Hag.
Qed.

Lemma run_setup_unforked h0 pre :
  Forall isSetup pre →
  let w := run (NewBasicClusterSnapshot h0) pre in
  wf w ∧ forkedData (snapshot w) = None.
Proof.
  intros Hpre. split; [apply run_wf, wf_New|].
  apply run_mutations_unforked; [apply wf_New|done|].
  eapply Forall_impl; [done|]. apply isSetup_isMutation.
Qed.

Lemma GetAllPods_contents w :
  (GetAllPods w).1 ≡ₚ podsOf (contents (getInternalData (snapshot w)) (heap w)).
Proof. apply getAllPods_contents. Qed.

Lemma GetAllNodes_contents w :
  (GetAllNodes w).1 ≡ₚ nodesOf (contents (getInternalData (snapshot w)) (heap w)).
Proof. apply getAllNodes_contents. Qed.

(** [Fork] and then [Revert], with mutators in between, on a snapshot that is
    not forked. *)
Lemma Fork_run_Revert w muts :
  wf w → forkedData (snapshot w) = None → Forall isMutation muts →
  let w' := (Revert (run (Fork w).1 muts)).1 in
  (Fork w).2 = None ∧
  snapshot w' = snapshot w ∧
  (∀ p, owns (baseData (snapshot w)) p → heap w' !! p = heap w !! p) ∧
  contents (getInternalData (snapshot w')) (heap w')
  = contents (getInternalData (snapshot w)) (heap w).
Proof.
  intros Hwf Hf Hmuts.
  destruct (Fork_unforked w Hwf Hf) as (forked & h' & HF & Hpre & _ & _ & Hwf1).
  destruct (run_mutations_forked (Fork w).1 muts Hwf1) as (_ & _ & Hbase & Hag);
    [by rewrite HF|done|].
  rewrite HF in Hbase, Hag |- *. simpl in *.
  assert (∀ p, owns (baseData (snapshot w)) p →
               heap (run {| snapshot := {| baseData := baseData (snapshot w);
                                           forkedData := Some forked |};
                            heap := h' |} muts) !! p = heap w !! p) as Hcells.
  { intros p Hp. rewrite Hag by done. apply prefix_lookup_lt; [done|].
    eapply owns_lt; [apply Hwf|done]. }
  split_and!; [done| |done|].
  - rewrite Hbase. destruct w as [[base fk] h]. simpl in *. by subst fk.
  - unfold getInternalData. simpl. rewrite Hf, Hbase. by apply contents_agree.
Qed.

End Proofs.

(** * The claims *)

Section Claims.

Context {MR : MapRange} {NR : NodeInfoRemovePod}.

(** C1. After any sequence of AddNode/AddPod calls on a new snapshot, a
    [Fork] (which succeeds), any sequence of AddNode/RemoveNode/AddPod/
    RemovePod calls and a [Revert], [GetAllNodes] and [GetAllPods] return,
    up to order, what they returned just before the [Fork]; the snapshot
    and the objects of its base data are what they were then. *)
Theorem fork_mutate_revert (h0 : Heap) (pre muts : list Op) :
  Forall isSetup pre → Forall isMutation muts →
  let w0 := run (NewBasicClusterSnapshot h0) pre in
  let w1 := (Fork w0).1 in
  let w2 := run w1 muts in
  let w3 := (Revert w2).1 in
  (Fork w0).2 = None ∧ (Revert w2).2 = None ∧
  snapshot w3 = snapshot w0 ∧
  (∀ p, owns (baseData (snapshot w0)) p → heap w3 !! p = heap w0 !! p) ∧
  (GetAllNodes w3).1 ≡ₚ (GetAllNodes w0).1 ∧
  (GetAllPods w3).1 ≡ₚ (GetAllPods w0).1.
Proof.
  intros Hpre Hmuts w0 w1 w2 w3.
  destruct (run_setup_unforked h0 pre Hpre) as [Hwf Hf]. fold w0 in Hwf, Hf.
  destruct (Fork_run_Revert w0 muts Hwf Hf Hmuts) as (HF & Hs & Hcells & Hc).
  fold w1 w2 w3 in Hs, Hcells, Hc.
  split_and!; [done|done|done|done|..].
  - by rewrite !GetAllNodes_contents, Hc.
  - by rewrite !GetAllPods_contents, Hc.
Qed.

(** C2. With [Commit] in place of [Revert]: [Commit] succeeds, makes the
    forked data the base data and leaves no fork, so [GetAllNodes] and
    [GetAllPods] return, up to order, what they returned on the forked state
    after the mutations; a [Fork] followed by a [Revert] then leaves the
    snapshot, the objects it owns and both listings as they were. *)
Theorem fork_mutate_commit (h0 : Heap) (pre muts : list Op) :
  Forall isSetup pre → Forall isMutation muts →
  let w0 := run (NewBasicClusterSnapshot h0) pre in
  let w1 := (Fork w0).1 in
  let w2 := run w1 muts in
  let w3 := (Commit w2).1 in
  let w4 := (Revert (Fork w3).1).1 in
  (Fork w0).2 = None ∧ (Commit w2).2 = None ∧
  forkedData (snapshot w2) = Some (baseData (snapshot w3)) ∧
  forkedData (snapshot w3) = None ∧
  heap w3 = heap w2 ∧
  (GetAllNodes w3).1 ≡ₚ (GetAllNodes w2).1 ∧
  (GetAllPods w3).1 ≡ₚ (GetAllPods w2).1 ∧
  (Fork w3).2 = None ∧ (Revert (Fork w3).1).2 = None ∧
  snapshot w4 = snapshot w3 ∧
  (∀ p, owns (baseData (snapshot w3)) p → heap w4 !! p = heap w3 !! p) ∧
  (GetAllNodes w4).1 ≡ₚ (GetAllNodes w3).1 ∧
  (GetAllPods w4).1 ≡ₚ (GetAllPods w3).1.
Proof.
  intros Hpre Hmuts w0 w1 w2 w3 w4.
  destruct (run_setup_unforked h0 pre Hpre) as [Hwf0 Hf0]. fold w0 in Hwf0, Hf0.
  destruct (Fork_unforked w0 Hwf0 Hf0) as (forked & h' & HF & _ & _ & _ & Hwf1).
  fold w1 in Hwf1.
  destruct (run_mutations_forked w1 muts Hwf1) as (Hwf2 & [forked2 Hf2] & _ & _);
    [by unfold w1; rewrite HF|done|].
  fold w2 in Hwf2, Hf2.
  assert (Commit w2 = ({| snapshot := {| baseData := forked2; forkedData := None |};
                          heap := heap w2 |}, None)) as HC.
  { unfold Commit. by rewrite Hf2. }
  assert (wf w3) as Hwf3 by apply (call_wf w2 OpCommit Hwf2).
  assert (forkedData (snapshot w3) = None) as Hf3 by (by unfold w3; rewrite HC).
  assert (getInternalData (snapshot w3) = getInternalData (snapshot w2)) as Hact.
  { unfold w3. rewrite HC. unfold getInternalData. by rewrite Hf2. }
  assert (heap w3 = heap w2) as Hheap by (by unfold w3; rewrite HC).
  assert ((Fork w3).2 = None ∧ snapshot w4 = snapshot w3 ∧
          (∀ p, owns (baseData (snapshot w3)) p → heap w4 !! p = heap w3 !! p) ∧
          contents (getInternalData (snapshot w4)) (heap w4)
          = contents (getInternalData (snapshot w3)) (heap w3))
    as (HF3 & Hs4 & Hcells & Hc) by (by apply (Fork_run_Revert w3 [])).
  split_and!; try done.
  - by rewrite HF.
  - by rewrite HC.
  - by unfold w3; rewrite HC.
  - unfold GetAllNodes. by rewrite Hact, Hheap.
  - unfold GetAllPods. by rewrite Hact, Hheap.
  - by rewrite !GetAllNodes_contents, Hc.
  - by rewrite !GetAllPods_contents, Hc.
Qed.

(** C3. On a forked snapshot [Fork] fails with "snapshot already forked" and
    changes nothing, neither in the snapshot nor in the store; in particular
    a second [Fork] in a row does. On a snapshot that is not forked [Fork]
    succeeds, keeps the base data and the objects allocated so far, and sets
    the forked data to a clone: the same names, each with a new object whose
    value is that of the base object, so that both listings read the same. *)
Theorem Fork_forked_or_not (w : World) :
  reachable w →
  (∀ forked, forkedData (snapshot w) = Some forked →
     Fork w = (w, Some "snapshot already forked")) ∧
  Fork (Fork w).1 = ((Fork w).1, Some "snapshot already forked") ∧
  (forkedData (snapshot w) = None →
     ∃ forked,
       (Fork w).2 = None ∧
       snapshot (Fork w).1 = {| baseData := baseData (snapshot w);
                                forkedData := Some forked |} ∧
       heap w `prefix_of` heap (Fork w).1 ∧
       dom (nodeInfoMap forked) = dom (nodeInfoMap (baseData (snapshot w))) ∧
       (∀ k p, nodeInfoMap (baseData (snapshot w)) !! k = Some p →
          ∃ p', nodeInfoMap forked !! k = Some p' ∧ length (heap w) ≤ p' ∧
                heap (Fork w).1 !! p' = heap w !! p) ∧
       (GetAllNodes (Fork w).1).1 ≡ₚ (GetAllNodes w).1 ∧
       (GetAllPods (Fork w).1).1 ≡ₚ (GetAllPods w).1).
Proof.
  intros Hwf%reachable_wf. split_and!.
  - intros forked Hf. unfold Fork. by rewrite Hf.
  - destruct (forkedData (snapshot w)) as [forked|] eqn:Hf.
    + unfold Fork at 2 3. rewrite Hf. simpl. unfold Fork. by rewrite Hf.
    + destruct (Fork_unforked w Hwf Hf) as (forked & h' & -> & _). done.
  - intros Hf.
    destruct (Fork_unforked w Hwf Hf) as (forked & h' & HF & Hpre & Hnone & Hsome & _).
    destruct (Fork_contents w forked h' Hwf Hf HF) as [Hc _].
    exists forked. rewrite HF. cbn [fst snd snapshot heap]. split_and!; try done.
    + apply set_eq. intros k. rewrite !elem_of_dom.
      destruct (nodeInfoMap (baseData (snapshot w)) !! k) as [p|] eqn:Hb.
      * destruct (Hsome k p Hb) as (p' & -> & _). by split.
      * by rewrite (Hnone k Hb).
    + intros k p Hb. destruct (Hsome k p Hb) as (p' & Hk & Hle & Hh').
      exists p'. split_and!; [done|done|].
      destruct Hwf as [Hbase _]. destruct (Hbase k p Hb) as (ni & nd & Hp & _).
      by rewrite Hh', (deref_lookup _ _ _ Hp).
    + rewrite !GetAllNodes_contents. unfold getInternalData. simpl.
      by rewrite Hf, Hc.
    + rewrite !GetAllPods_contents. unfold getInternalData. simpl.
      by rewrite Hf, Hc.
Qed.

(** C4. Without a fork, [Revert] returns no error and leaves the snapshot and
    the store as they are, and so does [Commit]. *)
Theorem Revert_Commit_unforked (w : World) :
  forkedData (snapshot w) = None →
  Revert w = (w, None) ∧ Commit w = (w, None).
Proof.
  intros Hf. unfold Revert, Commit. rewrite Hf. split; [|done].
  destruct w as [[base forked] h]. simpl in *. by subst forked.
Qed.

(** C6. [AddPod] on a name without a record in the active data fails with
    "node ... not in snapshot" and leaves the snapshot and the store as they
    are. On a name with a record it succeeds, the snapshot keeps its maps,
    and the one change in the store is that the pod is appended to the pods
    of the object under that name; [GetAllPods] gains the pod. *)
Theorem AddPod_absent_or_present (w : World) (pod : Pod.t) (nodeName : string) :
  reachable w →
  let r := AddPod w pod nodeName in
  match nodeInfoMap (getInternalData (snapshot w)) !! nodeName with
  | None => r = (w, Some ("node " +:+ nodeName +:+ " not in snapshot"))
  | Some p =>
      r.2 = None ∧
      snapshot r.1 = snapshot w ∧
      heap r.1 = <[p := {| node := node (deref (heap w) p);
                           pods := pods (deref (heap w) p) ++ [pod] |}]> (heap w) ∧
      Pods (deref (heap r.1) p) = Pods (deref (heap w) p) ++ [pod] ∧
      (GetAllNodes r.1).1 ≡ₚ (GetAllNodes w).1 ∧
      (GetAllPods r.1).1 ≡ₚ pod :: (GetAllPods w).1
  end.
Proof.
  intros Hwf%reachable_wf%wf_active r. subst r.
  unfold AddPod, delegate, addPod.
  destruct (nodeInfoMap (getInternalData (snapshot w)) !! nodeName) as [p|] eqn:Hn;
    cbn [fst snd snapshot heap].
  2: { rewrite setInternalData_get. by destruct w. }
  rewrite setInternalData_get.
  assert (p < length (heap w)) as Hp by (eapply named_lt; by apply Hwf).
  split_and!; try done.
  - by rewrite (deref_lookup _ _ _ (store_lookup_eq _ _ _ Hp)).
  - rewrite !GetAllNodes_contents. cbn [snapshot heap].
    rewrite (contents_store _ _ nodeName) by done.
    rewrite nodesOf_insert.
    by rewrite (nodesOf_lookup (contents _ (heap w)) nodeName _ (contents_lookup _ _ _ _ Hn)).
  - rewrite !GetAllPods_contents. cbn [snapshot heap].
    rewrite (contents_store _ _ nodeName) by done.
    rewrite podsOf_insert.
    rewrite (podsOf_lookup (contents _ (heap w)) nodeName _ (contents_lookup _ _ _ _ Hn)).
    unfold Pods, schedulernodeinfo.AddPod. cbn [pods].
    rewrite <-app_assoc. symmetry. apply Permutation_middle.
Qed.

(** C10. [GetAllPods], [GetAllNodes], the node lister's [List] and
    [HavePodsWithAffinityList], and the pod lister's [List] and
    [FilteredList] return a nil error in every state. The node lister's
    [Get] returns the object and a nil error for a name with a record, and
    fails with "node ... not in snapshot" for any other name. *)
Theorem bulk_reads_succeed (w : World) (podFilter : PodFilter)
  (selector : Selector) (nodeName : string) :
  let data := getInternalData (snapshot w) in
  (GetAllPods w).2 = None ∧
  (GetAllNodes w).2 = None ∧
  (nodeLister_List data (heap w)).2 = None ∧
  (nodeLister_HavePodsWithAffinityList data (heap w)).2 = None ∧
  (podLister_List data (heap w) selector).2 = None ∧
  (podLister_FilteredList data (heap w) podFilter selector).2 = None ∧
  nodeLister_Get data (heap w) nodeName =
    match nodeInfoMap data !! nodeName with
    | Some v => (Some v, None)
    | None => (None, Some ("node " +:+ nodeName +:+ " not in snapshot"))
    end.
Proof.
  by split_and!.
Qed.

(** C9. The node lister's [HavePodsWithAffinityList] returns, up to order,
    those objects of [List] that hold at least one pod with inter-pod
    affinity or anti-affinity; an object none of whose pods declares one is
    left out, whatever other pods it holds. *)
Theorem HavePodsWithAffinityList_filters_List
  (data : internalBasicSnapshotData) (h : Heap) :
  (nodeLister_HavePodsWithAffinityList data h).1
  ≡ₚ filter (λ p, Exists (λ pod, Pod.Affinity pod) (Pods (deref h p)))
            (nodeLister_List data h).1 ∧
  (∀ p, p ∈ (nodeLister_HavePodsWithAffinityList data h).1 ↔
        p ∈ (nodeLister_List data h).1 ∧
        ∃ pod, pod ∈ Pods (deref h p) ∧ Pod.Affinity pod = true) ∧
  (∀ p, (∀ pod, pod ∈ Pods (deref h p) → Pod.Affinity pod = false) →
        p ∉ (nodeLister_HavePodsWithAffinityList data h).1).
Proof.
  assert ((nodeLister_HavePodsWithAffinityList data h).1
          = filter (λ p, Exists (λ pod, Pod.Affinity pod) (Pods (deref h p)))
                   (nodeLister_List data h).1) as Heq.
  { unfold nodeLister_HavePodsWithAffinityList, nodeLister_List. cbn [fst].
    rewrite (foldl_app_bind (λ kv, [kv.2])), bind_singleton_fmap.
    rewrite HavePodsWithAffinityList_fold.
    cbn [app]. apply list_filter_iff. intros p. apply length_filter_pos. }
  assert (∀ p, p ∈ (nodeLister_HavePodsWithAffinityList data h).1 ↔
               p ∈ (nodeLister_List data h).1 ∧
               ∃ pod, pod ∈ Pods (deref h p) ∧ Pod.Affinity pod = true) as Hin.
  { intros p. rewrite Heq, list_elem_of_filter, Exists_exists.
    split.
    - intros [(pod & Hpod & Ha) Hp]. split; [done|]. exists pod.
      split; [done|]. by apply Is_true_true.
    - intros [Hp (pod & Hpod & Ha)]. split; [|done]. exists pod.
      split; [done|]. by apply Is_true_true. }
  split_and!; [by rewrite Heq|done|].
  intros p Hnone [_ (pod & Hpod & Ha)]%Hin. rewrite (Hnone pod Hpod) in Ha. done.
Qed.

(** C5, as the code has it. [RemoveNode] on a name without a record fails
    with "node ... not in snapshot" and changes nothing. On a name with a
    record it succeeds and deletes the entry, in the map only: [GetAllNodes]
    loses that node and no longer returns a node of that name, [GetAllPods]
    loses the pods of that record and returns exactly the pods of the records
    under the other names. A pod of the removed record that another record
    holds as well is therefore still returned. *)
Theorem RemoveNode_absent_or_present (w : World) (nodeName : string) :
  reachable w →
  let data := getInternalData (snapshot w) in
  let r := RemoveNode w nodeName in
  match nodeInfoMap data !! nodeName with
  | None => r = (w, Some ("node " +:+ nodeName +:+ " not in snapshot"))
  | Some p =>
      r.2 = None ∧
      heap r.1 = heap w ∧
      nodeInfoMap (getInternalData (snapshot r.1))
      = delete nodeName (nodeInfoMap data) ∧
      (GetAllNodes w).1 ≡ₚ Node (deref (heap w) p) :: (GetAllNodes r.1).1 ∧
      (∀ nd, Some nd ∈ (GetAllNodes r.1).1 → Node.Name nd ≠ nodeName) ∧
      (GetAllPods w).1 ≡ₚ Pods (deref (heap w) p) ++ (GetAllPods r.1).1 ∧
      (∀ pod, pod ∈ (GetAllPods r.1).1 ↔
              ∃ k q, k ≠ nodeName ∧ nodeInfoMap data !! k = Some q ∧
                     pod ∈ Pods (deref (heap w) q))
  end.
Proof.
  intros Hwf%reachable_wf%wf_active data r. subst data r.
  unfold RemoveNode, delegate, removeNode.
  destruct (nodeInfoMap (getInternalData (snapshot w)) !! nodeName) as [p|] eqn:Hn;
    cbn [fst snd snapshot heap].
  2: { rewrite setInternalData_get. by destruct w. }
  set (data := getInternalData (snapshot w)) in *.
  set (data' := {| nodeInfoMap := delete nodeName (nodeInfoMap data) |}).
  assert (contents data' (heap w) = delete nodeName (contents data (heap w))) as Hc.
  { unfold contents. simpl. by rewrite fmap_delete. }
  pose proof (contents_lookup _ (heap w) _ _ Hn) as Hcn.
  split_and!; try done.
  - by rewrite getInternalData_set.
  - rewrite !GetAllNodes_contents. cbn [snapshot heap].
    rewrite getInternalData_set, Hc. by apply nodesOf_lookup.
  - intros nd. unfold GetAllNodes. cbn [snapshot heap].
    rewrite getInternalData_set, getAllNodes_fmap, list_elem_of_fmap.
    intros ([k q] & Hnd & Hkq%elem_of_range). simpl in Hnd, Hkq.
    apply lookup_delete_Some in Hkq as [Hne Hkq].
    destruct (Hwf k q Hkq) as (ni & nd' & Hq & Hnd' & Hname).
    rewrite (deref_lookup _ _ _ Hq) in Hnd. unfold Node in Hnd.
    rewrite Hnd' in Hnd. injection Hnd as ->. by rewrite Hname.
  - rewrite !GetAllPods_contents. cbn [snapshot heap].
    rewrite getInternalData_set, Hc. by apply podsOf_lookup.
  - intros pod. unfold GetAllPods. cbn [snapshot heap].
    rewrite getInternalData_set, elem_of_getAllPods. simpl.
    split.
    + intros (k & q & [Hne Hkq]%lookup_delete_Some & Hpod). by exists k, q.
    + intros (k & q & Hne & Hkq & Hpod). exists k, q.
      by rewrite lookup_delete_Some.
Qed.


Lemma FilteredList_filter (data : internalBasicSnapshotData) (h : Heap)
  (podFilter : PodFilter) (selector : Selector) :
  (podLister_FilteredList data h podFilter selector).1
  = filter (λ pod, podFilter pod && Matches selector (Pod.Labels pod))
           (getAllPods data h).1.
Proof.
  rewrite getAllPods_bind, filter_bind_list.
  unfold podLister_FilteredList. cbn [fst].
  rewrite <-(app_nil_l (_ ≫= _)), <-foldl_app_bind.
  apply foldl_ext_list. intros pods kv.
  apply (foldl_app_filter_bool
           (λ pod, podFilter pod && Matches selector (Pod.Labels pod))).
Qed.

(** C8, as the code has it. The pod lister's [List] is [FilteredList] with
    the filter that accepts every pod. [FilteredList] returns, up to order,
    the pods of [getAllPods] that pass both the filter and the selector, each
    as often as [getAllPods] has it, and [List] those that pass the selector.
    The result is free of duplicates when [getAllPods] is. *)
Theorem FilteredList_is_filter (data : internalBasicSnapshotData) (h : Heap)
  (podFilter : PodFilter) (selector : Selector) :
  podLister_List data h selector
  = podLister_FilteredList data h (λ _, true) selector ∧
  (podLister_FilteredList data h podFilter selector).1
  ≡ₚ filter (λ pod, podFilter pod && Matches selector (Pod.Labels pod))
            (getAllPods data h).1 ∧
  (podLister_List data h selector).1
  ≡ₚ filter (λ pod, Matches selector (Pod.Labels pod)) (getAllPods data h).1 ∧
  (∀ pod, pod ∈ (podLister_FilteredList data h podFilter selector).1 ↔
          pod ∈ (getAllPods data h).1 ∧ podFilter pod = true ∧
          Matches selector (Pod.Labels pod) = true) ∧
  (NoDup (getAllPods data h).1 →
   NoDup (podLister_FilteredList data h podFilter selector).1).
Proof.
  split_and!.
  - done.
  - by rewrite FilteredList_filter.
  - unfold podLister_List. by rewrite FilteredList_filter.
  - intros pod. rewrite FilteredList_filter, list_elem_of_filter.
    rewrite andb_True, !Is_true_true. tauto.
  - intros Hnd. rewrite FilteredList_filter. by apply NoDup_filter.
Qed.

End Claims.

(** * The claims on concrete runs *)

Section Runs.

Import Ex.

#[local] Existing Instance listRange.
#[local] Existing Instance removeByUID.

(** The two scenarios of the spec, evaluated. *)
Example scenario_revert :
  let w := (Revert (run (Fork (run start setup)).1 trial)).1 in
  GetAllNodes w = ([Some n1], None) ∧ GetAllPods w = ([podA], None).
Proof. by vm_compute. Qed.

Example scenario_commit :
  let w := (Commit (run (Fork (run start setup)).1 trial)).1 in
  GetAllNodes w = ([], None) ∧ GetAllPods w = ([], None) ∧
  forkedData (snapshot w) = None.
Proof. by vm_compute. Qed.

Lemma fork_mutate_revert_witness :
  Forall isSetup setup ∧ Forall isMutation trial ∧
  (Fork (run start setup)).2 = None ∧
  (GetAllNodes (Revert (run (Fork (run start setup)).1 trial)).1).1
  ≡ₚ (GetAllNodes (run start setup)).1 ∧
  (GetAllPods (Revert (run (Fork (run start setup)).1 trial)).1).1
  ≡ₚ (GetAllPods (run start setup)).1.
Proof.
  assert (Forall isSetup setup) as Hsetup by (repeat constructor).
  assert (Forall isMutation trial) as Htrial by (repeat constructor).
  split; [exact Hsetup|]. split; [exact Htrial|].
  destruct (fork_mutate_revert [] setup trial Hsetup Htrial)
    as (HF & _ & _ & _ & Hnodes & Hpods).
  split; [exact HF|]. split; [exact Hnodes|exact Hpods].
Defined.

Lemma fork_mutate_commit_witness :
  Forall isSetup setup ∧ Forall isMutation trial ∧
  (Commit (run (Fork (run start setup)).1 trial)).2 = None ∧
  (GetAllPods (Commit (run (Fork (run start setup)).1 trial)).1).1
  ≡ₚ (GetAllPods (run (Fork (run start setup)).1 trial)).1 ∧
  snapshot (Revert (Fork (Commit (run (Fork (run start setup)).1 trial)).1).1).1
  = snapshot (Commit (run (Fork (run start setup)).1 trial)).1.
Proof.
  assert (Forall isSetup setup) as Hsetup by (repeat constructor).
  assert (Forall isMutation trial) as Htrial by (repeat constructor).
  split; [exact Hsetup|]. split; [exact Htrial|].
  destruct (fork_mutate_commit [] setup trial Hsetup Htrial)
    as (_ & HC & _ & _ & _ & _ & Hpods & _ & _ & Hsnap & _).
  split; [exact HC|]. split; [exact Hpods|exact Hsnap].
Defined.

Lemma Fork_forked_or_not_witness :
  reachable (run start setup) ∧
  forkedData (snapshot (run start setup)) = None ∧
  (Fork (run start setup)).2 = None ∧
  Fork (Fork (run start setup)).1
  = ((Fork (run start setup)).1, Some "snapshot already forked") ∧
  (GetAllPods (Fork (run start setup)).1).1 ≡ₚ (GetAllPods (run start setup)).1.
Proof.
  assert (reachable (run start setup)) as Hreach by (exists [], setup; reflexivity).
  assert (forkedData (snapshot (run start setup)) = None) as Hf by reflexivity.
  destruct (Fork_forked_or_not (run start setup) Hreach) as (_ & Htwice & Hun).
  destruct (Hun Hf) as (forked & Herr & _ & _ & _ & _ & _ & Hpods).
  split; [exact Hreach|]. split; [exact Hf|]. split; [exact Herr|].
  split; [exact Htwice|exact Hpods].
Defined.

Lemma Revert_Commit_unforked_witness :
  forkedData (snapshot (run start setup)) = None ∧
  Revert (run start setup) = (run start setup, None) ∧
  Commit (run start setup) = (run start setup, None).
Proof.
  split; [reflexivity|].
  apply (Revert_Commit_unforked (run start setup)). reflexivity.
Defined.

Lemma RemoveNode_absent_or_present_witness :
  reachable (run start two) ∧
  nodeInfoMap (getInternalData (snapshot (run start two))) !! "n1" = Some 0 ∧
  (RemoveNode (run start two) "n1").2 = None ∧
  (GetAllPods (run start two)).1
  ≡ₚ Pods (deref (heap (run start two)) 0)
     ++ (GetAllPods (RemoveNode (run start two) "n1").1).1.
Proof.
  assert (reachable (run start two)) as Hreach by (exists [], two; reflexivity).
  assert (nodeInfoMap (getInternalData (snapshot (run start two))) !! "n1"
          = Some 0) as Hn by (vm_compute; reflexivity).
  pose proof (RemoveNode_absent_or_present (run start two) "n1" Hreach) as H.
  cbv zeta in H. rewrite Hn in H. destruct H as (Herr & _ & _ & _ & _ & Hpods & _).
  split; [exact Hreach|]. split; [exact Hn|]. split; [exact Herr|exact Hpods].
Defined.

(** The claim C5 as it is written fails where a pod sits on two nodes:
    removing one of them leaves the pod in [GetAllPods]. *)
Lemma RemoveNode_shared_pod_counterexample :
  ¬ (∀ (MR : MapRange) (w : World) (nodeName : string) (p : ptr) (pod : Pod.t),
       reachable w →
       nodeInfoMap (getInternalData (snapshot w)) !! nodeName = Some p →
       pod ∈ Pods (deref (heap w) p) →
       (RemoveNode w nodeName).2 = None ∧
       pod ∉ (GetAllPods (RemoveNode w nodeName).1).1).
Proof.
  intros H.
  destruct (H listRange (run start shared) "n1" 0 podA) as [_ Hgone].
  - exists [], shared. reflexivity.
  - vm_compute. reflexivity.
  - vm_compute. apply list_elem_of_here.
  - apply Hgone. vm_compute. apply list_elem_of_here.
Qed.

Lemma AddPod_absent_or_present_witness :
  reachable (run start setup) ∧
  AddPod (run start setup) podB "n2"
  = (run start setup, Some "node n2 not in snapshot") ∧
  (AddPod (run start setup) podB "n1").2 = None ∧
  (GetAllPods (AddPod (run start setup) podB "n1").1).1
  ≡ₚ podB :: (GetAllPods (run start setup)).1.
Proof.
  assert (reachable (run start setup)) as Hreach by (exists [], setup; reflexivity).
  assert (nodeInfoMap (getInternalData (snapshot (run start setup))) !! "n2"
          = None) as Hn2 by (vm_compute; reflexivity).
  assert (nodeInfoMap (getInternalData (snapshot (run start setup))) !! "n1"
          = Some 0) as Hn1 by (vm_compute; reflexivity).
  pose proof (AddPod_absent_or_present (run start setup) podB "n2" Hreach) as H2.
  pose proof (AddPod_absent_or_present (run start setup) podB "n1" Hreach) as H1.
  cbv zeta in H1, H2. rewrite Hn2 in H2. rewrite Hn1 in H1.
  destruct H1 as (Herr & _ & _ & _ & _ & Hpods).
  split; [exact Hreach|]. split; [exact H2|]. split; [exact Herr|exact Hpods].
Defined.



Lemma FilteredList_is_filter_witness :
  NoDup (getAllPods (getInternalData (snapshot (run start two)))
           (heap (run start two))).1 ∧
  NoDup (podLister_FilteredList (getInternalData (snapshot (run start two)))
           (heap (run start two)) Pod.Affinity everything).1 ∧
  (podLister_FilteredList (getInternalData (snapshot (run start two)))
     (heap (run start two)) Pod.Affinity everything).1 = [podB] ∧
  (podLister_List (getInternalData (snapshot (run start two)))
     (heap (run start two)) appWeb).1 = [podA].
Proof.
  assert (NoDup (getAllPods (getInternalData (snapshot (run start two)))
                   (heap (run start two))).1) as Hnd.
  { vm_compute. apply NoDup_cons. split.
    - intros Hin. apply list_elem_of_singleton in Hin. discriminate.
    - apply NoDup_singleton. }
  destruct (FilteredList_is_filter (getInternalData (snapshot (run start two)))
              (heap (run start two)) Pod.Affinity everything)
    as (_ & _ & _ & _ & Hnodup).
  split; [exact Hnd|]. split; [exact (Hnodup Hnd)|]. split; reflexivity.
Defined.

(** The claim C8 as it is written fails in its last part: with a pod on two
    nodes [FilteredList] returns it twice. *)
Lemma FilteredList_duplicates_counterexample :
  ¬ (∀ (MR : MapRange) (w : World) (podFilter : PodFilter) (selector : Selector),
       reachable w →
       NoDup (podLister_FilteredList (getInternalData (snapshot w)) (heap w)
                podFilter selector).1).
Proof.
  intros H.
  assert (reachable (run start shared)) as Hreach by (exists [], shared; reflexivity).
  specialize (H listRange (run start shared) (λ _, true) everything Hreach).
  vm_compute in H. apply NoDup_cons in H as [Hnotin _].
  apply Hnotin, list_elem_of_here.
Qed.

Lemma HavePodsWithAffinityList_filters_List_witness :
  (nodeLister_List (getInternalData (snapshot (run start two)))
     (heap (run start two))).1 = [0; 1] ∧
  (nodeLister_HavePodsWithAffinityList (getInternalData (snapshot (run start two)))
     (heap (run start two))).1 = [1] ∧
  0 ∉ (nodeLister_HavePodsWithAffinityList
         (getInternalData (snapshot (run start two))) (heap (run start two))).1.
Proof.
  destruct (HavePodsWithAffinityList_filters_List
              (getInternalData (snapshot (run start two))) (heap (run start two)))
    as (_ & _ & Hout).
  split; [reflexivity|]. split; [reflexivity|].
  apply Hout. vm_compute. intros pod Hpod.
  apply list_elem_of_singleton in Hpod. by subst pod.
Defined.

End Runs.

(** * Further properties of the code *)

Section More.

Context {MR : MapRange} {NR : NodeInfoRemovePod}.

Implicit Types (data : internalBasicSnapshotData) (h : Heap) (w : World).

Lemma range_empty : range ∅ = [].
Proof. apply Permutation_nil_r. by rewrite range_perm, map_to_list_empty. Qed.

Lemma length_range (m : gmap string ptr) : length (range m) = size m.
Proof. by rewrite range_perm, length_map_to_list. Qed.

(** A new object under a new name. *)
Lemma contents_alloc data h k v :
  wf_data data h →
  contents {| nodeInfoMap := <[k := length h]> (nodeInfoMap data) |} (h ++ [v])
  = <[k := v]> (contents data h).
Proof.
  intros Hwf. apply map_eq. intros k'. unfold contents. simpl.
  rewrite !lookup_fmap, !lookup_insert, lookup_fmap. case_decide.
  - simpl. by rewrite deref_alloc.
  - destruct (nodeInfoMap data !! k') as [q|] eqn:Hk'; [|done]. simpl.
    f_equal. apply deref_agree, lookup_app_l. eapply named_lt. by apply Hwf.
Qed.

Lemma contents_prefix data h h' :
  wf_data data h → h `prefix_of` h' → contents data h' = contents data h.
Proof.
  intros Hwf Hpre. apply contents_agree. intros p Hp.
  apply prefix_lookup_lt; [done|]. by eapply owns_lt.
Qed.

(** X1. [AddNode] on a name that has a record fails with "node ... already in
    snapshot" and changes nothing. On a new name it succeeds: one object is
    allocated, with the node and no pods, and entered under the name;
    [GetAllNodes] gains the node and [GetAllPods] stays as it is. *)
Theorem AddNode_exists_or_new (w : World) (nd : Node.t) :
  reachable w →
  let data := getInternalData (snapshot w) in
  let r := AddNode w nd in
  match nodeInfoMap data !! Node.Name nd with
  | Some _ =>
      r = (w, Some ("node " +:+ Node.Name nd +:+ " already in snapshot"))
  | None =>
      r.2 = None ∧
      heap r.1 = heap w ++ [{| node := Some nd; pods := [] |}] ∧
      nodeInfoMap (getInternalData (snapshot r.1))
      = <[Node.Name nd := length (heap w)]> (nodeInfoMap data) ∧
      (GetAllNodes r.1).1 ≡ₚ Some nd :: (GetAllNodes w).1 ∧
      (GetAllPods r.1).1 ≡ₚ (GetAllPods w).1
  end.
Proof.
  intros Hwf%reachable_wf%wf_active data r. subst data r.
  unfold AddNode, delegate. rewrite addNode_eq.
  destruct (nodeInfoMap (getInternalData (snapshot w)) !! Node.Name nd) eqn:Hn;
    cbn [fst snd snapshot heap].
  { rewrite setInternalData_get. by destruct w. }
  assert (contents (getInternalData (snapshot w)) (heap w) !! Node.Name nd = None)
    as Hc by (unfold contents; by rewrite lookup_fmap, Hn).
  split_and!; try done.
  - by rewrite getInternalData_set.
  - rewrite !GetAllNodes_contents. cbn [snapshot heap].
    rewrite getInternalData_set, contents_alloc by done.
    by rewrite nodesOf_insert, delete_id.
  - rewrite !GetAllPods_contents. cbn [snapshot heap].
    rewrite getInternalData_set, contents_alloc by done.
    by rewrite podsOf_insert, delete_id.
Qed.

(** X2. The name is what counts: after [AddNode] of a node, whatever it
    returned, [AddNode] of any node of the same name fails with "node ...
    already in snapshot" and changes nothing. *)
Theorem AddNode_same_name_again (w : World) (nd1 nd2 : Node.t) :
  Node.Name nd2 = Node.Name nd1 →
  AddNode (AddNode w nd1).1 nd2
  = ((AddNode w nd1).1,
     Some ("node " +:+ Node.Name nd2 +:+ " already in snapshot")).
Proof.
  intros Hname. unfold AddNode at 1. unfold delegate. rewrite addNode_eq.
  assert (is_Some (nodeInfoMap (getInternalData (snapshot (AddNode w nd1).1))
                   !! Node.Name nd2)) as [p ->].
  { rewrite Hname. unfold AddNode, delegate. rewrite addNode_eq.
    destruct (nodeInfoMap (getInternalData (snapshot w)) !! Node.Name nd1) eqn:Hn;
      cbn [fst snd snapshot heap]; rewrite getInternalData_set; simpl.
    - by rewrite Hn.
    - by rewrite lookup_insert_eq. }
  rewrite setInternalData_get. by destruct (AddNode w nd1).1.
Qed.

(** X3. After [RemoveNode] of a name, whatever it returned, a second
    [RemoveNode] of the name fails with "node ... not in snapshot" and
    changes nothing. *)
Theorem RemoveNode_again (w : World) (nodeName : string) :
  RemoveNode (RemoveNode w nodeName).1 nodeName
  = ((RemoveNode w nodeName).1,
     Some ("node " +:+ nodeName +:+ " not in snapshot")).
Proof.
  unfold RemoveNode at 1. unfold delegate, removeNode.
  assert (nodeInfoMap (getInternalData (snapshot (RemoveNode w nodeName).1))
          !! nodeName = None) as ->.
  { unfold RemoveNode, delegate, removeNode.
    destruct (nodeInfoMap (getInternalData (snapshot w)) !! nodeName) eqn:Hn;
      cbn [fst snd snapshot heap]; rewrite getInternalData_set; simpl.
    - by rewrite lookup_delete_eq.
    - done. }
  rewrite setInternalData_get. by destruct (RemoveNode w nodeName).1.
Qed.

(** X4. [AddNode] of a new name and then [RemoveNode] of it: both succeed,
    the snapshot is what it was, the objects it had are untouched (the one
    allocated is left behind), and both listings read as before. *)
Theorem AddNode_RemoveNode (w : World) (nd : Node.t) :
  reachable w →
  nodeInfoMap (getInternalData (snapshot w)) !! Node.Name nd = None →
  let r := RemoveNode (AddNode w nd).1 (Node.Name nd) in
  (AddNode w nd).2 = None ∧ r.2 = None ∧
  snapshot r.1 = snapshot w ∧
  heap r.1 = heap w ++ [{| node := Some nd; pods := [] |}] ∧
  (GetAllNodes r.1).1 ≡ₚ (GetAllNodes w).1 ∧
  (GetAllPods r.1).1 ≡ₚ (GetAllPods w).1.
Proof.
  intros Hwf%reachable_wf%wf_active Hn r. subst r.
  unfold AddNode, delegate. rewrite addNode_eq, Hn. cbn [fst snd].
  unfold RemoveNode, delegate, removeNode. cbn [fst snd snapshot heap].
  rewrite getInternalData_set. cbn [nodeInfoMap].
  rewrite lookup_insert_eq. cbn [fst snd snapshot heap].
  rewrite delete_insert_id by done.
  assert (setInternalData
            (setInternalData (snapshot w)
               {| nodeInfoMap := <[Node.Name nd := length (heap w)]>
                                   (nodeInfoMap (getInternalData (snapshot w))) |})
            {| nodeInfoMap := nodeInfoMap (getInternalData (snapshot w)) |}
          = snapshot w) as Hs.
  { by destruct (snapshot w) as [[base] [[forked]|]]. }
  rewrite Hs. split_and!; try done.
  - rewrite !GetAllNodes_contents. cbn [snapshot heap].
    rewrite (contents_prefix _ (heap w)); [done|done|]. by apply prefix_app_r.
  - rewrite !GetAllPods_contents. cbn [snapshot heap].
    rewrite (contents_prefix _ (heap w)); [done|done|]. by apply prefix_app_r.
Qed.

(** X6. A call that returns an error has done nothing: whatever the method,
    the snapshot and the store are then exactly what they were. For the
    error of the record's [RemovePod] this is what is assumed of it. *)
Theorem failed_call_changes_nothing (w : World) (op : Op) :
  (call w op).2 ≠ None → (call w op).1 = w.
Proof.
  destruct op as [nd|nodeName|pod nodeName|namespace podName| | | |]; simpl.
  - unfold AddNode, delegate. rewrite addNode_eq.
    destruct (nodeInfoMap _ !! Node.Name nd); cbn [fst snd]; [|done].
    intros _. rewrite setInternalData_get. by destruct w.
  - unfold RemoveNode, delegate, removeNode.
    destruct (nodeInfoMap _ !! nodeName); cbn [fst snd]; [done|].
    intros _. rewrite setInternalData_get. by destruct w.
  - unfold AddPod, delegate, addPod.
    destruct (nodeInfoMap _ !! nodeName); cbn [fst snd]; [done|].
    intros _. rewrite setInternalData_get. by destruct w.
  - unfold RemovePod, delegate, removePod.
    destruct (removePod_scan_cases
                (range (nodeInfoMap (getInternalData (snapshot w)))) (heap w)
                namespace podName)
      as [[-> _]|(before & kv & after & ps1 & pod & ps2 & _ & _ & _ & _ & _ & ->)];
      cbn [fst snd].
    + intros _. rewrite setInternalData_get. by destruct w.
    + intros Herr. rewrite setInternalData_get.
      assert ((schedulernodeinfo.RemovePod (deref (heap w) kv.2) pod).2 ≠ None)
        as Hfail.
      { intros Hnone. by rewrite Hnone in Herr. }
      rewrite (RemovePod_failed _ _ Hfail).
      assert (store kv.2 (deref (heap w) kv.2) (heap w) = heap w) as ->;
        [|by destruct w].
      unfold store, deref. destruct (heap w !! kv.2) as [ni|] eqn:Hp; simpl.
      * by apply list_insert_id.
      * apply list_insert_ge. by apply lookup_ge_None.
  - unfold Fork. destruct (forkedData (snapshot w)); [done|].
    by destruct (clone _ _).
  - done.
  - unfold Commit. by destruct (forkedData (snapshot w)).
  - done.
Qed.

Lemma named_nodes h (l : list (string * ptr)) :
  (∀ k p, (k, p) ∈ l → named h k p) →
  ∃ nds : list Node.t,
    (λ kv, Node (deref h kv.2)) <$> l = Some <$> nds ∧
    Node.Name <$> nds = l.*1 ∧
    ∀ nd, nd ∈ nds → ∃ k p, (k, p) ∈ l ∧ Node.Name nd = k ∧
                            Node (deref h p) = Some nd.
Proof.
  induction l as [|[k p] l IH]; intros Hl.
  { exists []. split_and!; [done|done|]. intros nd Hnd. by apply elem_of_nil in Hnd. }
  destruct IH as (nds & Hnodes & Hnames & Hget).
  { intros k' p' Hin. apply Hl. by right. }
  destruct (Hl k p) as (ni & nd & Hp & Hnd & Hk); [by left|].
  assert (Node (deref h p) = Some nd) as Hnode.
  { by rewrite (deref_lookup _ _ _ Hp). }
  exists (nd :: nds). split_and!.
  - rewrite !fmap_cons. simpl. by rewrite Hnode, Hnodes.
  - rewrite !fmap_cons. simpl. by rewrite Hk, Hnames.
  - intros nd' [->|Hin]%elem_of_cons.
    + exists k, p. split_and!; [by left|done|done].
    + destruct (Hget nd' Hin) as (k' & p' & Hkp & Hname & Hnd').
      exists k', p'. split_and!; [by right|done|done].
Qed.

(** X7. In every state a caller can reach, [GetAllNodes] returns no nil
    node and no two nodes of the same name, and the node lister's [Get] on
    the name of each of them returns an object that wraps that very node. *)
Theorem node_names_unique (w : World) :
  reachable w →
  ∃ nds : list Node.t,
    (GetAllNodes w).1 = Some <$> nds ∧
    NoDup (Node.Name <$> nds) ∧
    ∀ nd, nd ∈ nds →
      ∃ p, nodeLister_Get (getInternalData (snapshot w)) (heap w) (Node.Name nd)
           = (Some p, None) ∧
           Node (deref (heap w) p) = Some nd.
Proof.
  intros Hwf%reachable_wf%wf_active.
  destruct (named_nodes (heap w) (range (nodeInfoMap (getInternalData (snapshot w)))))
    as (nds & Hnodes & Hnames & Hget).
  { intros k p Hkp%elem_of_range. by apply Hwf. }
  exists nds. split_and!.
  - unfold GetAllNodes. by rewrite getAllNodes_fmap.
  - rewrite Hnames, range_perm. apply NoDup_fst_map_to_list.
  - intros nd (k & p & Hkp%elem_of_range & Hname & Hnd)%Hget. exists p.
    split; [|done]. unfold nodeLister_Get. by rewrite Hname, Hkp.
Qed.

(** X8. In every state a caller can reach, every address in the base map and
    in the forked map is allocated, two names of one map never hold the same
    object, and the base and the forked data hold no object in common. *)
Theorem store_never_shared (w : World) :
  reachable w →
  let base := baseData (snapshot w) in
  (∀ p, owns base p → p < length (heap w)) ∧
  (∀ k1 k2 p, nodeInfoMap base !! k1 = Some p →
              nodeInfoMap base !! k2 = Some p → k1 = k2) ∧
  ∀ forked, forkedData (snapshot w) = Some forked →
    (∀ p, owns forked p → p < length (heap w)) ∧
    (∀ k1 k2 p, nodeInfoMap forked !! k1 = Some p →
                nodeInfoMap forked !! k2 = Some p → k1 = k2) ∧
    (∀ p, owns base p → ¬ owns forked p).
Proof.
  intros [Hbase Hfork]%reachable_wf base. subst base. split_and!.
  - intros p. by apply owns_lt.
  - intros k1 k2 p. by apply (wf_data_inj _ (heap w)).
  - intros forked Hf. rewrite Hf in Hfork. destruct Hfork as [Hforked Hsep].
    split; [|split; [|done]].
    + intros p. by apply owns_lt.
    + intros k1 k2 p. by apply (wf_data_inj _ (heap w)).
Qed.

Lemma nodeLister_List_range data h :
  (nodeLister_List data h).1 = (range (nodeInfoMap data)).*2.
Proof.
  unfold nodeLister_List. cbn [fst].
  by rewrite (foldl_app_bind (λ kv, [kv.2])), bind_singleton_fmap.
Qed.

(** X9. The lister that [GetSchedulerLister] hands out, always without
    error, shows what the snapshot's own reads show: [GetAllNodes] is, up to
    order, the nodes of the objects of its [List], [GetAllPods] their pods,
    [List] has one object per name of the map, and an object is in [List]
    exactly when [Get] returns it for some name. *)
Theorem lister_agrees_with_reads (w : World) :
  let lister := (GetSchedulerLister w).1 in
  let objects := (nodeLister_List lister (heap w)).1 in
  (GetSchedulerLister w).2 = None ∧
  (GetAllNodes w).1 ≡ₚ (λ p, Node (deref (heap w) p)) <$> objects ∧
  (GetAllPods w).1 ≡ₚ objects ≫= (λ p, Pods (deref (heap w) p)) ∧
  length objects = size (nodeInfoMap lister) ∧
  ∀ p, p ∈ objects ↔
       ∃ nodeName, nodeLister_Get lister (heap w) nodeName = (Some p, None).
Proof.
  intros lister objects. subst lister objects. cbn [GetSchedulerLister fst snd].
  rewrite nodeLister_List_range. split_and!.
  - done.
  - unfold GetAllNodes. by rewrite getAllNodes_fmap, <-list_fmap_compose.
  - unfold GetAllPods. by rewrite getAllPods_bind, bind_fmap_list.
  - by rewrite length_fmap, length_range.
  - intros p. rewrite list_elem_of_fmap. unfold nodeLister_Get. split.
    + intros ([k q] & -> & Hkq%elem_of_range). exists k. by rewrite Hkq.
    + intros [k Hget].
      destruct (nodeInfoMap (getInternalData (snapshot w)) !! k) as [q|] eqn:Hk;
        [|done].
      injection Hget as ->. exists (k, p). by rewrite elem_of_range.
Qed.

(** X10. [FilteredList] is [List] with the filter applied afterwards, and a
    filter that is a conjunction can be applied in two steps: in both cases
    the same pods come out the same number of times. *)
Theorem FilteredList_in_steps (data : internalBasicSnapshotData) (h : Heap)
  (f g : PodFilter) (selector : Selector) :
  (podLister_FilteredList data h f selector).1
  ≡ₚ filter (λ pod, f pod) (podLister_List data h selector).1 ∧
  (podLister_FilteredList data h (λ pod, f pod && g pod) selector).1
  ≡ₚ filter (λ pod, g pod) (podLister_FilteredList data h f selector).1.
Proof.
  unfold podLister_List. rewrite !FilteredList_filter, !list_filter_filter.
  split.
  - erewrite list_filter_iff; [done|]. intros pod. simpl.
    rewrite !andb_True. tauto.
  - erewrite list_filter_iff; [done|]. intros pod. simpl.
    rewrite !andb_True. tauto.
Qed.

(** X11. [Clear], in any state and also in the middle of a fork, leaves what
    [NewBasicClusterSnapshot] builds: no fork and no node. Both listings and
    the lister's [List] are empty, [Get] fails for every name, and the store
    is not touched. *)
Theorem Clear_empties (w : World) :
  let w' := (Clear w).1 in
  Clear w = (NewBasicClusterSnapshot (heap w), None) ∧
  forkedData (snapshot w') = None ∧
  (GetAllNodes w').1 = [] ∧
  (GetAllPods w').1 = [] ∧
  (nodeLister_List (getInternalData (snapshot w')) (heap w')).1 = [] ∧
  ∀ nodeName,
    nodeLister_Get (getInternalData (snapshot w')) (heap w') nodeName
    = (None, Some ("node " +:+ nodeName +:+ " not in snapshot")).
Proof.
  intros w'. subst w'. split_and!; try done.
  - unfold GetAllNodes. rewrite getAllNodes_fmap. simpl. by rewrite range_empty.
  - unfold GetAllPods. rewrite getAllPods_bind. simpl. by rewrite range_empty.
  - rewrite nodeLister_List_range. simpl. by rewrite range_empty.
Qed.

(** X12. Once [Revert] or [Commit] has run there is nothing left to resolve:
    a [Revert] or [Commit] right after either of them returns no error and
    changes nothing, so a [Revert] does not undo a [Commit]. *)
Theorem resolved_is_final (w : World) :
  Revert (Revert w).1 = ((Revert w).1, None) ∧
  Commit (Revert w).1 = ((Revert w).1, None) ∧
  Revert (Commit w).1 = ((Commit w).1, None) ∧
  Commit (Commit w).1 = ((Commit w).1, None).
Proof.
  split_and!; [done|done|..].
  - unfold Commit. destruct w as [[base [forked|]] h]; done.
  - unfold Commit. destruct w as [[base [forked|]] h]; done.
Qed.

Lemma clone_fold_length (l : list (string * ptr)) m0 h m1 h1 :
  foldl clone_step (m0, h) l = (m1, h1) →
  h `prefix_of` h1 ∧ length h1 = length h + length l.
Proof.
  revert m0 h. induction l as [|kv l IH]; intros m0 h; cbn [foldl].
  { intros [= <- <-]. split; [done|]. simpl. lia. }
  unfold clone_step at 2, NodeInfo_Clone, alloc.
  intros (Hpre & Hlen)%IH. split.
  - etrans; [|done]. by apply prefix_app_r.
  - rewrite Hlen, length_app. simpl. lia.
Qed.

(** X13. What [Fork] costs: without a fork, it allocates exactly one object
    for each name of the base map and leaves every object allocated before
    as it is; with a fork, it allocates nothing. *)
Theorem Fork_allocates_per_node (w : World) :
  (forkedData (snapshot w) = None →
   heap w `prefix_of` heap (Fork w).1 ∧
   length (heap (Fork w).1)
   = length (heap w) + size (nodeInfoMap (baseData (snapshot w)))) ∧
  (is_Some (forkedData (snapshot w)) → heap (Fork w).1 = heap w).
Proof.
  split.
  - intros Hf. unfold Fork, clone. rewrite Hf.
    destruct (foldl _ _ _) as [m1 h1] eqn:Hfold. cbn [fst heap].
    apply clone_fold_length in Hfold as [Hpre Hlen].
    by rewrite Hlen, length_range.
  - intros [forked Hf]. unfold Fork. by rewrite Hf.
Qed.

(** X14. [Fork] and then [Commit] with nothing in between, on a snapshot
    without a fork: both succeed, no fork is left, the base map has the same
    names and both listings read as before, but the base data now holds the
    objects [Fork] allocated and none of the former ones. *)
Theorem Fork_Commit_swaps_objects (w : World) :
  reachable w → forkedData (snapshot w) = None →
  let w' := (Commit (Fork w).1).1 in
  (Fork w).2 = None ∧ (Commit (Fork w).1).2 = None ∧
  forkedData (snapshot w') = None ∧
  dom (nodeInfoMap (baseData (snapshot w')))
  = dom (nodeInfoMap (baseData (snapshot w))) ∧
  (∀ p, owns (baseData (snapshot w')) p →
        length (heap w) ≤ p ∧ ¬ owns (baseData (snapshot w)) p) ∧
  (GetAllNodes w').1 ≡ₚ (GetAllNodes w).1 ∧
  (GetAllPods w').1 ≡ₚ (GetAllPods w).1.
Proof.
  intros Hwf%reachable_wf Hf w'. subst w'.
  destruct (Fork_unforked w Hwf Hf) as (forked & h' & HF & Hpre & Hnone & Hsome & _).
  destruct (Fork_contents w forked h' Hwf Hf HF) as [Hc _].
  rewrite HF. unfold Commit. cbn [fst snd snapshot heap forkedData baseData].
  assert (∀ p, owns forked p → length (heap w) ≤ p) as Hnew.
  { intros p [k Hk].
    destruct (nodeInfoMap (baseData (snapshot w)) !! k) as [q|] eqn:Hb.
    - destruct (Hsome k q Hb) as (p' & Hk' & Hle & _). congruence.
    - apply Hnone in Hb. congruence. }
  split_and!; try done.
  - apply set_eq. intros k. rewrite !elem_of_dom.
    destruct (nodeInfoMap (baseData (snapshot w)) !! k) as [q|] eqn:Hb.
    + destruct (Hsome k q Hb) as (p' & -> & _). by split.
    + by rewrite (Hnone k Hb).
  - intros p Hp. split; [by apply Hnew|]. intros Hold.
    pose proof (Hnew p Hp). destruct Hwf as [Hbase _].
    pose proof (owns_lt _ _ _ Hbase Hold). lia.
  - rewrite !GetAllNodes_contents. unfold getInternalData.
    cbn [snapshot heap forkedData baseData]. by rewrite Hf, Hc.
  - rewrite !GetAllPods_contents. unfold getInternalData.
    cbn [snapshot heap forkedData baseData]. by rewrite Hf, Hc.
Qed.

(** X16. While a fork is open, no sequence of AddNode/RemoveNode/AddPod/
    RemovePod calls, in any state a caller can reach, changes the base data
    or an object it owns; the fork stays open, and what a [Revert] would
    bring back is what it would have brought back before these calls. *)
Theorem fork_spares_base (w : World) (muts : list Op) :
  reachable w → is_Some (forkedData (snapshot w)) → Forall isMutation muts →
  let w' := run w muts in
  is_Some (forkedData (snapshot w')) ∧
  baseData (snapshot w') = baseData (snapshot w) ∧
  (∀ p, owns (baseData (snapshot w)) p → heap w' !! p = heap w !! p) ∧
  (GetAllNodes (Revert w').1).1 ≡ₚ (GetAllNodes (Revert w).1).1 ∧
  (GetAllPods (Revert w').1).1 ≡ₚ (GetAllPods (Revert w).1).1.
Proof.
  intros Hwf%reachable_wf Hf Hmuts w'. subst w'.
  destruct (run_mutations_forked w muts Hwf Hf Hmuts) as (_ & Hf' & Hbase & Hag).
  assert (contents (baseData (snapshot (run w muts))) (heap (run w muts))
          = contents (baseData (snapshot w)) (heap w)) as Hc.
  { rewrite Hbase. by apply contents_agree. }
  split_and!; try done.
  - rewrite !GetAllNodes_contents. unfold getInternalData.
    cbn [Revert fst snapshot heap forkedData baseData]. by rewrite Hc.
  - rewrite !GetAllPods_contents. unfold getInternalData.
    cbn [Revert fst snapshot heap forkedData baseData]. by rewrite Hc.
Qed.

End More.

(** X15. The timeout that [List], [Watch] and [DeleteCollection] compute is
    zero without [TimeoutSeconds]. For a 64-bit [TimeoutSeconds] it is the
    64-bit number congruent modulo 2^64 to that many seconds in nanoseconds,
    which is what a wrapped product is; it is the product itself exactly when
    the seconds lie between -9223372036 and 9223372036. *)
Theorem timeout_exact_range (seconds : Z) :
  (- 2 ^ 63 ≤ seconds < 2 ^ 63)%Z →
  csidriver.timeout None = 0%Z ∧
  (- 2 ^ 63 ≤ csidriver.timeout (Some seconds) < 2 ^ 63)%Z ∧
  (csidriver.timeout (Some seconds) `mod` 2 ^ 64
   = (seconds * csidriver.Second) `mod` 2 ^ 64)%Z ∧
  (csidriver.timeout (Some seconds) = (seconds * csidriver.Second)%Z ↔
   (-9223372036 ≤ seconds ≤ 9223372036)%Z).
Proof.
  intros Hs. unfold csidriver.timeout, csidriver.wrap64, csidriver.Second.
  assert (2 ^ 63 = 9223372036854775808)%Z as H63 by reflexivity.
  assert (2 ^ 64 = 18446744073709551616)%Z as H64 by reflexivity.
  rewrite H63, H64 in *.
  pose proof (Z.mod_pos_bound (seconds * 1000000000 + 9223372036854775808)
                18446744073709551616) as Hmod.
  split; [done|]. split; [lia|]. split; [|split].
  - rewrite Zminus_mod_idemp_l. f_equal. lia.
  - intros Heq. lia.
  - intros Hin. rewrite Z.mod_small by lia. lia.
Qed.

(** * The further properties on concrete runs *)

Section MoreRuns.

Import Ex ExMore.

#[local] Existing Instance listRange.
#[local] Existing Instance removeByUID.

Lemma AddNode_exists_or_new_witness :
  reachable (run start setup) ∧
  AddNode (run start setup) n1'
  = (run start setup, Some "node n1 already in snapshot") ∧
  (AddNode (run start setup) n2).2 = None ∧
  (GetAllNodes (AddNode (run start setup) n2).1).1
  ≡ₚ Some n2 :: (GetAllNodes (run start setup)).1.
Proof.
  assert (reachable (run start setup)) as Hreach by (exists [], setup; reflexivity).
  assert (nodeInfoMap (getInternalData (snapshot (run start setup))) !! "n1"
          = Some 0) as Hn1 by (vm_compute; reflexivity).
  assert (nodeInfoMap (getInternalData (snapshot (run start setup))) !! "n2"
          = None) as Hn2 by (vm_compute; reflexivity).
  pose proof (AddNode_exists_or_new (run start setup) n1' Hreach) as H1.
  pose proof (AddNode_exists_or_new (run start setup) n2 Hreach) as H2.
  cbv zeta in H1, H2. change (Node.Name n1') with "n1" in H1.
  change (Node.Name n2) with "n2" in H2. rewrite Hn1 in H1. rewrite Hn2 in H2.
  destruct H2 as (Herr & _ & _ & Hnodes & _).
  split; [exact Hreach|]. split; [exact H1|]. split; [exact Herr|exact Hnodes].
Defined.

Lemma AddNode_same_name_again_witness :
  Node.Name n1' = Node.Name n1 ∧
  AddNode (AddNode start n1).1 n1'
  = ((AddNode start n1).1, Some "node n1 already in snapshot").
Proof.
  split; [reflexivity|].
  exact (AddNode_same_name_again start n1 n1' eq_refl).
Defined.

Lemma AddNode_RemoveNode_witness :
  reachable (run start setup) ∧
  nodeInfoMap (getInternalData (snapshot (run start setup))) !! Node.Name n2
  = None ∧
  snapshot (RemoveNode (AddNode (run start setup) n2).1 "n2").1
  = snapshot (run start setup).
Proof.
  assert (reachable (run start setup)) as Hreach by (exists [], setup; reflexivity).
  assert (nodeInfoMap (getInternalData (snapshot (run start setup)))
          !! Node.Name n2 = None) as Hn2 by (vm_compute; reflexivity).
  destruct (AddNode_RemoveNode (run start setup) n2 Hreach Hn2)
    as (_ & _ & Hsnap & _).
  split; [exact Hreach|]. split; [exact Hn2|exact Hsnap].
Defined.

Lemma failed_call_changes_nothing_witness :
  (call (run start setup) (OpAddNode n1')).2 ≠ None ∧
  (call (run start setup) (OpAddNode n1')).1 = run start setup.
Proof.
  assert ((call (run start setup) (OpAddNode n1')).2 ≠ None) as Herr.
  { vm_compute. discriminate. }
  split; [exact Herr|].
  exact (failed_call_changes_nothing (run start setup) (OpAddNode n1') Herr).
Defined.

Lemma node_names_unique_witness :
  reachable (run start two) ∧
  ∃ nds : list Node.t,
    (GetAllNodes (run start two)).1 = Some <$> nds ∧
    NoDup (Node.Name <$> nds).
Proof.
  assert (reachable (run start two)) as Hreach by (exists [], two; reflexivity).
  destruct (node_names_unique (run start two) Hreach) as (nds & Hnodes & Hnd & _).
  split; [exact Hreach|]. exists nds. split; [exact Hnodes|exact Hnd].
Defined.

Lemma store_never_shared_witness :
  reachable (run start forked) ∧
  is_Some (forkedData (snapshot (run start forked))) ∧
  ∀ p, owns (baseData (snapshot (run start forked))) p → p < length (heap (run start forked)).
Proof.
  assert (reachable (run start forked)) as Hreach by (exists [], forked; reflexivity).
  destruct (store_never_shared (run start forked) Hreach) as (Hlt & _ & _).
  split; [exact Hreach|]. split; [eexists; reflexivity|exact Hlt].
Defined.

Lemma Fork_allocates_per_node_witness :
  forkedData (snapshot (run start two)) = None ∧
  length (heap (Fork (run start two)).1)
  = length (heap (run start two))
    + size (nodeInfoMap (baseData (snapshot (run start two)))) ∧
  length (heap (Fork (run start two)).1) = 4.
Proof.
  assert (forkedData (snapshot (run start two)) = None) as Hf by reflexivity.
  destruct (Fork_allocates_per_node (run start two)) as [Hun _].
  destruct (Hun Hf) as [_ Hlen].
  split; [exact Hf|]. split; [exact Hlen|reflexivity].
Defined.

Lemma Fork_Commit_swaps_objects_witness :
  reachable (run start two) ∧
  forkedData (snapshot (run start two)) = None ∧
  (GetAllPods (Commit (Fork (run start two)).1).1).1
  ≡ₚ (GetAllPods (run start two)).1 ∧
  ∀ p, owns (baseData (snapshot (Commit (Fork (run start two)).1).1)) p →
       length (heap (run start two)) ≤ p ∧
       ¬ owns (baseData (snapshot (run start two))) p.
Proof.
  assert (reachable (run start two)) as Hreach by (exists [], two; reflexivity).
  assert (forkedData (snapshot (run start two)) = None) as Hf by reflexivity.
  destruct (Fork_Commit_swaps_objects (run start two) Hreach Hf)
    as (_ & _ & _ & _ & Hnew & _ & Hpods).
  split; [exact Hreach|]. split; [exact Hf|]. split; [exact Hpods|exact Hnew].
Defined.

Lemma fork_spares_base_witness :
  reachable (run start forked) ∧
  is_Some (forkedData (snapshot (run start forked))) ∧
  Forall isMutation trial ∧
  baseData (snapshot (run (run start forked) trial))
  = baseData (snapshot (run start forked)) ∧
  (GetAllPods (Revert (run (run start forked) trial)).1).1
  ≡ₚ (GetAllPods (Revert (run start forked)).1).1.
Proof.
  assert (reachable (run start forked)) as Hreach by (exists [], forked; reflexivity).
  assert (is_Some (forkedData (snapshot (run start forked)))) as Hf
    by (eexists; reflexivity).
  assert (Forall isMutation trial) as Htrial by (repeat constructor).
  destruct (fork_spares_base (run start forked) trial Hreach Hf Htrial)
    as (_ & Hbase & _ & _ & Hpods).
  split; [exact Hreach|]. split; [exact Hf|]. split; [exact Htrial|].
  split; [exact Hbase|exact Hpods].
Defined.

Lemma timeout_exact_range_witness :
  (- 2 ^ 63 ≤ 30 < 2 ^ 63)%Z ∧
  (- 2 ^ 63 ≤ 9223372037 < 2 ^ 63)%Z ∧
  csidriver.timeout (Some 30%Z) = 30000000000%Z ∧
  csidriver.timeout (Some 9223372037%Z) = (-9223372036709551616)%Z ∧
  (csidriver.timeout (Some 9223372037%Z) `mod` 2 ^ 64
   = (9223372037 * csidriver.Second) `mod` 2 ^ 64)%Z.
Proof.
  assert (- 2 ^ 63 ≤ 30 < 2 ^ 63)%Z as Hs by (split; [discriminate|reflexivity]).
  assert (- 2 ^ 63 ≤ 9223372037 < 2 ^ 63)%Z as Hbig
    by (split; [discriminate|reflexivity]).
  destruct (timeout_exact_range 30 Hs) as (_ & _ & _ & Hiff).
  destruct (timeout_exact_range 9223372037 Hbig) as (_ & _ & Hcong & _).
  split; [exact Hs|]. split; [exact Hbig|].
  split; [apply Hiff; split; discriminate|]. split; [reflexivity|exact Hcong].
Defined.

End MoreRuns.
